(** * Aggregate functions of the OLAP storage engine

    A shallow embedding of [be/src/olap/aggregate_func.h]: the per-method
    [init] / [update] / [finalize] functions that fold the values of rows
    with equal keys, and the properties of them that the specification
    states.

    A [RowCursorCell] is a null flag followed by the raw bytes of the
    column slot.  For fixed-width field types the bytes are read and
    written through [reinterpret_cast<CppType*>]; for CHAR / VARCHAR and
    HLL the slot holds a [Slice] (pointer, length) into byte memory. *)

From Stdlib Require Import ZArith List Lia Bool Permutation.
From coqutil Require Import Byte Word.LittleEndianList.
From stdpp Require Import gmap.

Local Open Scope Z_scope.

(** ** Raw bytes *)

(** [memcpy(dst, src, n)] on the byte views that start at the two
    pointers: the first [n] bytes of [dst] are replaced by the first [n]
    bytes of [src]. *)
Definition memcpy (dst src : list byte) (n : nat) : list byte :=
  take n src ++ drop n dst.

(** ** Field types

    [FieldTypeTraits<field_type>::CppType] with the operations the
    templates use on it: its size, the load and store behind a
    [reinterpret_cast<CppType*>] dereference, [operator<] and
    [operator+].  [operator>] is [operator<] with the operands swapped. *)
Class FieldTypeTraits (CppType : Type) := {
  sizeof : nat;
  load : list byte -> CppType;
  store : CppType -> list byte;
  cpp_lt : CppType -> CppType -> bool;
  cpp_add : CppType -> CppType -> CppType
}.

Definition cpp_gt {CppType : Type} {F : FieldTypeTraits CppType} (a b : CppType) : bool := cpp_lt b a.

(** A value occupies exactly [sizeof] bytes, and a load followed by a
    store gives back the bytes that were read. *)
Class FieldTypeLaws (CppType : Type) {F : FieldTypeTraits CppType} := {
  store_length : forall v : CppType, length (store v) = sizeof;
  store_load : forall bs : list byte,
    (sizeof <= length bs)%nat -> store (load bs) = take sizeof bs;
  load_prefix : forall a b : list byte,
    length a = sizeof -> load (a ++ b) = load a
}.

(** Integer field types: [width] bytes, two's complement when signed,
    stored little-endian. *)
Record IntType := { width : nat; is_signed : bool }.

Definition bits (t : IntType) : Z := 8 * Z.of_nat (width t).

(** The value a [bits t]-bit register holds after [z] is written to it. *)
Definition wrap (t : IntType) (z : Z) : Z :=
  if is_signed t
  then (z + 2 ^ (bits t - 1)) mod 2 ^ bits t - 2 ^ (bits t - 1)
  else z mod 2 ^ bits t.

Definition int_load (t : IntType) (bs : list byte) : Z :=
  wrap t (le_combine (take (width t) bs)).

Definition int_store (t : IntType) (v : Z) : list byte :=
  le_split (width t) v.

Definition IntTraits (t : IntType) : FieldTypeTraits Z := {|
  sizeof := width t;
  load := int_load t;
  store := int_store t;
  cpp_lt := Z.ltb;
  cpp_add := fun a b => wrap t (a + b)
|}.

Definition TINYINT : IntType := {| width := 1; is_signed := true |}.
Definition SMALLINT : IntType := {| width := 2; is_signed := true |}.
Definition INT : IntType := {| width := 4; is_signed := true |}.
Definition BIGINT : IntType := {| width := 8; is_signed := true |}.
Definition LARGEINT : IntType := {| width := 16; is_signed := true |}.

(** ** Cells *)

Record RowCursorCell (V : Type) := {
  is_null : bool;
  cell_ptr : V
}.
Arguments is_null {V} _.
Arguments cell_ptr {V} _.

Definition set_is_null {V} (c : RowCursorCell V) (b : bool) : RowCursorCell V :=
  {| is_null := b; cell_ptr := cell_ptr c |}.

Definition set_cell {V} (c : RowCursorCell V) (v : V) : RowCursorCell V :=
  {| is_null := is_null c; cell_ptr := v |}.

(** A cell of a fixed-width column: the bytes from the cell pointer on. *)
Abbreviation FixedCell := (RowCursorCell (list byte)).

(** [*dst_val = v] through [CppType* dst_val = reinterpret_cast<CppType*>(...)]. *)
Definition assign {CppType : Type} {F : FieldTypeTraits CppType} (dst : FixedCell) (v : CppType) : FixedCell :=
  set_cell dst (memcpy (cell_ptr dst) (store v) sizeof).

(** The cell holds a whole value of the type. *)
Definition holds (n : nat) (c : FixedCell) : Prop := (n <= length (cell_ptr c))%nat.

(** The bytes of a local [CppType] variable before [memcpy] fills them. *)
Definition local (n : nat) : list byte := repeat Byte.x00 n.

(** ** The aggregate functions *)

Module BaseAggregateFuncs.
(** Default init function will set to null. *)
Definition init {V} (dst : RowCursorCell V) : RowCursorCell V :=
  set_is_null dst true.

(** Default update do nothing. *)
Definition update {V} (dst src : RowCursorCell V) : RowCursorCell V := dst.

(** Default finalize do nothing. *)
Definition finalize {V} (src : RowCursorCell V) : RowCursorCell V := src.
End BaseAggregateFuncs.

Module MIN.
Definition update {CppType : Type} {F : FieldTypeTraits CppType} (dst src : FixedCell) : FixedCell :=
  let src_null := is_null src in
  if src_null then dst else
  let dst_null := is_null dst in
  let dst_val : CppType := load (cell_ptr dst) in
  let src_val : CppType := load (cell_ptr src) in
  if dst_null || cpp_lt src_val dst_val
  then assign (set_is_null dst false) src_val
  else dst.
End MIN.

Module MIN_LARGEINT.
Definition update (dst src : FixedCell) : FixedCell :=
  let src_null := is_null src in
  if src_null then dst else
  let dst_null := is_null dst in
  if dst_null
  then set_cell (set_is_null dst false) (memcpy (cell_ptr dst) (cell_ptr src) 16)
  else
    let dst_val := int_load LARGEINT (memcpy (local 16) (cell_ptr dst) 16) in
    let src_val := int_load LARGEINT (memcpy (local 16) (cell_ptr src) 16) in
    if src_val <? dst_val
    then set_cell (set_is_null dst false) (memcpy (cell_ptr dst) (cell_ptr src) 16)
    else dst.
End MIN_LARGEINT.

Module MAX.
Definition update {CppType : Type} {F : FieldTypeTraits CppType} (dst src : FixedCell) : FixedCell :=
  let src_null := is_null src in
  if src_null then dst else
  let dst_null := is_null dst in
  let dst_val : CppType := load (cell_ptr dst) in
  let src_val : CppType := load (cell_ptr src) in
  if dst_null || cpp_gt src_val dst_val
  then assign (set_is_null dst false) src_val
  else dst.
End MAX.

Module MAX_LARGEINT.
Definition update (dst src : FixedCell) : FixedCell :=
  let src_null := is_null src in
  if src_null then dst else
  let dst_null := is_null dst in
  let dst_val := int_load LARGEINT (memcpy (local 16) (cell_ptr dst) 16) in
  let src_val := int_load LARGEINT (memcpy (local 16) (cell_ptr src) 16) in
  if dst_null || (src_val >? dst_val)
  then set_cell (set_is_null dst false) (memcpy (cell_ptr dst) (cell_ptr src) 16)
  else dst.
End MAX_LARGEINT.

Module SUM.
Definition update {CppType : Type} {F : FieldTypeTraits CppType} (dst src : FixedCell) : FixedCell :=
  let src_null := is_null src in
  if src_null then dst else
  let dst_null := is_null dst in
  if dst_null
  then assign (set_is_null dst false) (load (cell_ptr src) : CppType)
  else assign dst (cpp_add (load (cell_ptr dst)) (load (cell_ptr src)) : CppType).
End SUM.

Module SUM_LARGEINT.
Definition update (dst src : FixedCell) : FixedCell :=
  let src_null := is_null src in
  if src_null then dst else
  let dst_null := is_null dst in
  if dst_null
  then set_cell (set_is_null dst false) (memcpy (cell_ptr dst) (cell_ptr src) 16)
  else
    let dst_val := int_load LARGEINT (memcpy (local 16) (cell_ptr dst) 16) in
    let src_val := int_load LARGEINT (memcpy (local 16) (cell_ptr src) 16) in
    let dst_val := wrap LARGEINT (dst_val + src_val) in
    set_cell dst (memcpy (cell_ptr dst) (int_store LARGEINT dst_val) 16).
End SUM_LARGEINT.

Module REPLACE.
Definition update {CppType : Type} {F : FieldTypeTraits CppType} (dst src : FixedCell) : FixedCell :=
  let src_null := is_null src in
  let dst := set_is_null dst src_null in
  if negb src_null
  then set_cell dst (memcpy (cell_ptr dst) (cell_ptr src) sizeof)
  else dst.
End REPLACE.

(** ** Byte memory, slices and the arena *)

(** The bytes that slices point into, by address. *)
Definition Memory := Z -> byte.

(** [Slice] of [util/slice.h]: a pointer and a length. *)
Module slice.
Record Slice := { data : Z; size : Z }.
End slice.
Abbreviation Slice := slice.Slice.

(** Modelled from the spec: [memory_copy] of [util/mem_util.hpp], which
    is not part of the excerpt; "bytes are copied": the [n] bytes at
    [src] are read and written at [dst]. *)
Definition memory_copy (m : Memory) (dst src : Z) (n : Z) : Memory :=
  fun a => if (dst <=? a) && (a <? dst + n) then m (src + (a - dst)) else m a.

(** [Arena::Allocate] of [util/arena.h], which is not part of the
    excerpt: it returns the address of a fresh buffer and the arena
    after the allocation. *)
Class ArenaOps (Arena : Type) := {
  Allocate : Arena -> Z -> Z * Arena
}.

Abbreviation SliceCell := (RowCursorCell Slice).

Module REPLACE_CHAR.
(** [arena = None] is the null pointer. *)
Definition update {Arena : Type} {A : ArenaOps Arena}
    (dst src : SliceCell) (arena : option Arena) (m : Memory)
    : SliceCell * option Arena * Memory :=
  let dst_null := is_null dst in
  let src_null := is_null src in
  let dst := set_is_null dst src_null in
  if src_null then (dst, arena, m) else
  let dst_slice := cell_ptr dst in
  let src_slice := cell_ptr src in
  let in_place :=
    let m := memory_copy m (slice.data dst_slice) (slice.data src_slice) (slice.size src_slice) in
    (set_cell dst {| slice.data := slice.data dst_slice; slice.size := slice.size src_slice |}, arena, m) in
  match arena with
  | None => in_place
  | Some a =>
      if negb dst_null && (slice.size dst_slice >=? slice.size src_slice)
      then in_place
      else
        let '(p, a) := Allocate a (slice.size src_slice) in
        let m := memory_copy m p (slice.data src_slice) (slice.size src_slice) in
        (set_cell dst {| slice.data := p; slice.size := slice.size src_slice |}, Some a, m)
  end.
End REPLACE_CHAR.

(** VARCHAR inherits the CHAR specialisation. *)
Module REPLACE_VARCHAR.
Definition update {Arena : Type} {A : ArenaOps Arena} := REPLACE_CHAR.update (Arena := Arena).
End REPLACE_VARCHAR.

(** ** HyperLogLog columns *)

(** The accumulator of an HLL column, with the fields the aggregate
    functions use.  [hash64_set] is a pointer to a heap-allocated
    [std::set<uint64_t>]; [None] once it has been deleted. *)
Record HllContext := {
  has_value : bool;
  has_sparse_or_full : bool;
  registers : list byte;
  hash64_set : option (gset Z)
}.

(** The constants and helpers of [olap/hll.h], which is not part of the
    excerpt.  The encoders write at the address they are given and
    return the memory and the [result_len] they set. *)
Class HllSetHelper := {
  HLL_REGISTERS_COUNT : nat;
  HLL_EXPLICLIT_INT64_NUM : nat;
  HLL_COLUMN_DEFAULT_LEN : Z;
  sizeof_SparseIndexType : nat;
  sizeof_SparseValueType : nat;
  sizeof_SparseLengthValueType : nat;
  init_context : HllContext -> HllContext;
  fill_set : Slice -> Memory -> HllContext -> HllContext;
  set_max_register : list byte -> nat -> gset Z -> list byte;
  set_full : Memory -> Z -> list byte -> nat -> Memory * Z;
  set_sparse : Memory -> Z -> gmap nat byte -> Memory * Z;
  set_explicit : Memory -> Z -> gset Z -> Memory * Z
}.

(** The branch of [finalize] that writes the slice. *)
Inductive HllEncoding := FullSet | SparseSet | ExplicitSet | NoSet.

(** [int x = e] for an [e] of type [size_t]. *)
Definition int_of_size_t (z : Z) : Z := wrap INT (z mod 2 ^ 64).

Module HLL_UNION.
Definition init {H : HllSetHelper} (dst : SliceCell) (context : HllContext)
    : SliceCell * HllContext :=
  let dst := set_is_null dst false in
  let context := init_context context in
  (dst, {| has_value := true;
           has_sparse_or_full := has_sparse_or_full context;
           registers := registers context;
           hash64_set := hash64_set context |}).

Definition update {H : HllSetHelper} (dst src : SliceCell) (m : Memory)
    (context : HllContext) : SliceCell * HllContext :=
  (dst, fill_set (cell_ptr src) m context).

(** The condition under which the hash set is folded into the registers. *)
Definition converts {H : HllSetHelper} (context : HllContext) (hs : gset Z) : bool :=
  has_sparse_or_full context || (HLL_EXPLICLIT_INT64_NUM <? size hs)%nat.

(** [context->registers] after the first [if]. *)
Definition registers_after {H : HllSetHelper} (context : HllContext) (hs : gset Z)
    : list byte :=
  if converts context hs
  then set_max_register (registers context) HLL_REGISTERS_COUNT hs
  else registers context.

(** The loop over [i = 0 .. HLL_REGISTERS_COUNT - 1]. *)
Definition collect (regs : list byte) (n : nat) : gmap nat byte :=
  foldl (fun (index_to_value : gmap nat byte) (i : nat) =>
           match regs !! i with
           | Some r =>
               if negb (Byte.eqb r Byte.x00)
               then <[i := r]> index_to_value
               else index_to_value
           | None => index_to_value
           end)
        ∅ (seq 0 n).

Definition index_to_value {H : HllSetHelper} (context : HllContext) (hs : gset Z)
    : gmap nat byte :=
  if converts context hs
  then collect (registers_after context hs) HLL_REGISTERS_COUNT
  else ∅.

Definition sparse_set_len {H : HllSetHelper} (context : HllContext) (hs : gset Z) : Z :=
  int_of_size_t
    (Z.of_nat (size (index_to_value context hs))
     * (Z.of_nat sizeof_SparseIndexType + Z.of_nat sizeof_SparseValueType)
     + Z.of_nat sizeof_SparseLengthValueType).

Definition select {H : HllSetHelper} (context : HllContext) (hs : gset Z) : HllEncoding :=
  if sparse_set_len context hs >=? HLL_COLUMN_DEFAULT_LEN then FullSet
  else if (0 <? size (index_to_value context hs))%nat then SparseSet
  else if (0 <? size hs)%nat then ExplicitSet
  else NoSet.

(** [None] when the hash set has already been deleted. *)
Definition finalize {H : HllSetHelper} (slice : Slice) (m : Memory) (context : HllContext)
    : option (Slice * Memory * HllContext) :=
  match hash64_set context with
  | None => None
  | Some hs =>
      let regs := registers_after context hs in
      let result_len := 0 in
      let '(m, result_len) :=
        match select context hs with
        | FullSet => set_full m (slice.data slice) regs HLL_REGISTERS_COUNT
        | SparseSet => set_sparse m (slice.data slice) (index_to_value context hs)
        | ExplicitSet => set_explicit m (slice.data slice) hs
        | NoSet => (m, result_len)
        end in
      Some ({| slice.data := slice.data slice; slice.size := Z.land result_len 65535 |},
            m,
            {| has_value := has_value context;
               has_sparse_or_full := has_sparse_or_full context;
               registers := regs;
               hash64_set := None |})
  end.
End HLL_UNION.

(** ** The dispatch table *)

Inductive FieldAggregationMethod :=
  | OLAP_FIELD_AGGREGATION_NONE
  | OLAP_FIELD_AGGREGATION_MIN
  | OLAP_FIELD_AGGREGATION_MAX
  | OLAP_FIELD_AGGREGATION_SUM
  | OLAP_FIELD_AGGREGATION_REPLACE
  | OLAP_FIELD_AGGREGATION_HLL_UNION.

(** An instantiated [AggregateTraits<aggMethod, fieldType>]: the static
    functions and the [merge] member, [None] for [nullptr]. *)
Record AggregateTraits (Init Update Finalize : Type) := {
  t_init : Init;
  t_update : Update;
  t_merge : option Update;
  t_finalize : Finalize;
  t_agg_method : FieldAggregationMethod
}.
Arguments t_init {Init Update Finalize} _.
Arguments t_update {Init Update Finalize} _.
Arguments t_merge {Init Update Finalize} _.
Arguments t_finalize {Init Update Finalize} _.
Arguments t_agg_method {Init Update Finalize} _.

Record AggregateInfo (Init Update Finalize : Type) := {
  _init_fn : Init;
  _update_fn : Update;
  _merge_fn : Update;
  _finalize_fn : Finalize;
  _agg_method : FieldAggregationMethod
}.
Arguments _init_fn {Init Update Finalize} _.
Arguments _update_fn {Init Update Finalize} _.
Arguments _merge_fn {Init Update Finalize} _.
Arguments _finalize_fn {Init Update Finalize} _.
Arguments _agg_method {Init Update Finalize} _.

(** Modelled from the spec: the constructor [AggregateInfo(const Traits&)],
    declared in the header and defined outside the excerpt; "if no
    explicit merge is supplied for a pair, merge is identical to update",
    and the header: "AggregateInfo constructor will set merge function to
    update function when merge is nullptr". *)
Definition make_AggregateInfo {Init Update Finalize}
    (traits : AggregateTraits Init Update Finalize)
    : AggregateInfo Init Update Finalize :=
  {| _init_fn := t_init traits;
     _update_fn := t_update traits;
     _merge_fn := match t_merge traits with
                  | Some merge => merge
                  | None => t_update traits
                  end;
     _finalize_fn := t_finalize traits;
     _agg_method := t_agg_method traits |}.

(** The templates of the header as traits.  None of them declares a
    [merge] of its own: each inherits [merge = nullptr] from
    [BaseAggregateFuncs]. *)
Section Builtin.
Context {CppType : Type} {F : FieldTypeTraits CppType}.
Context {Arena : Type} {A : ArenaOps Arena}.
Context {H : HllSetHelper}.

Definition fixed_traits (method : FieldAggregationMethod)
    (update : FixedCell -> FixedCell -> FixedCell) :=
  {| t_init := @BaseAggregateFuncs.init (list byte);
     t_update := update;
     t_merge := None;
     t_finalize := @BaseAggregateFuncs.finalize (list byte);
     t_agg_method := method |}.

Definition none_traits := fixed_traits OLAP_FIELD_AGGREGATION_NONE BaseAggregateFuncs.update.
Definition min_traits := fixed_traits OLAP_FIELD_AGGREGATION_MIN (MIN.update (CppType := CppType)).
Definition min_largeint_traits := fixed_traits OLAP_FIELD_AGGREGATION_MIN MIN_LARGEINT.update.
Definition max_traits := fixed_traits OLAP_FIELD_AGGREGATION_MAX (MAX.update (CppType := CppType)).
Definition max_largeint_traits := fixed_traits OLAP_FIELD_AGGREGATION_MAX MAX_LARGEINT.update.
Definition sum_traits := fixed_traits OLAP_FIELD_AGGREGATION_SUM (SUM.update (CppType := CppType)).
Definition sum_largeint_traits := fixed_traits OLAP_FIELD_AGGREGATION_SUM SUM_LARGEINT.update.
Definition replace_traits :=
  fixed_traits OLAP_FIELD_AGGREGATION_REPLACE (REPLACE.update (CppType := CppType)).

Definition replace_char_traits :=
  {| t_init := @BaseAggregateFuncs.init Slice;
     t_update := REPLACE_CHAR.update (Arena := Arena);
     t_merge := None;
     t_finalize := @BaseAggregateFuncs.finalize Slice;
     t_agg_method := OLAP_FIELD_AGGREGATION_REPLACE |}.

Definition hll_union_traits :=
  {| t_init := HLL_UNION.init;
     t_update := HLL_UNION.update;
     t_merge := None;
     t_finalize := HLL_UNION.finalize;
     t_agg_method := OLAP_FIELD_AGGREGATION_HLL_UNION |}.
End Builtin.

(** ** Abstract views and sample data

    What the cells stand for, in which the properties below are stated,
    and concrete cells, memories and sketches on which the definitions
    are evaluated. *)

(** The range of a [bits t]-bit integer. *)
Definition in_range (t : IntType) (z : Z) : Prop :=
  if is_signed t
  then - 2 ^ (bits t - 1) <= z < 2 ^ (bits t - 1)
  else 0 <= z < 2 ^ bits t.

(** What a cell of an integer column stands for: no value, or the
    integer its bytes encode. *)
Definition value (t : IntType) (c : FixedCell) : option Z :=
  if is_null c then None else Some (int_load t (cell_ptr c)).

Definition opt_min (a b : option Z) : option Z :=
  match a, b with
  | None, _ => b
  | _, None => a
  | Some x, Some y => Some (Z.min x y)
  end.

Definition opt_max (a b : option Z) : option Z :=
  match a, b with
  | None, _ => b
  | _, None => a
  | Some x, Some y => Some (Z.max x y)
  end.

(** The integers of the non-null cells of a sequence, in order. *)
Definition values (t : IntType) (srcs : list FixedCell) : list Z :=
  omap (value t) srcs.

Definition sum_list (vs : list Z) : Z := foldr Z.add 0 vs.

(** A non-null cell whose first bytes encode [v] and whose other bytes
    are those of [dst]. *)
Definition stored (t : IntType) (dst : FixedCell) (v : Z) : FixedCell :=
  {| is_null := false; cell_ptr := memcpy (cell_ptr dst) (int_store t v) (width t) |}.

(** The fold that a key group goes through: [init], then one [update]
    per source row. *)
Definition sum_fold (t : IntType) (dst : FixedCell) (srcs : list FixedCell) : FixedCell :=
  foldl (SUM.update (F := IntTraits t)) (BaseAggregateFuncs.init dst) srcs.

(** A sequence of REPLACE updates on one destination. *)
Definition replace_fold {CppType : Type} {F : FieldTypeTraits CppType}
    (dst : FixedCell) (srcs : list FixedCell) : FixedCell :=
  foldl (REPLACE.update (CppType := CppType)) dst srcs.

(** The last cell of a sequence that is not null, if there is one. *)
Definition last_non_null (srcs : list FixedCell) : option FixedCell :=
  foldl (fun found s => if is_null s then found else Some s) None srcs.

(** Cells of an integer column. *)
Definition int_cell (t : IntType) (v : Z) : FixedCell :=
  {| is_null := false; cell_ptr := int_store t v |}.

Definition null_cell (t : IntType) : FixedCell :=
  {| is_null := true; cell_ptr := int_store t 0 |}.

(** Modelled from the spec: the arena "bump-allocates short-lived byte
    buffers"; [util/arena.h] is not part of the excerpt. *)
Record BumpArena := { next_free : Z }.

#[export] Instance BumpArenaOps : ArenaOps BumpArena := {|
  Allocate := fun a n => (next_free a, {| next_free := next_free a + n |})
|}.

(** A memory that holds [bs] at address [p] and zero bytes elsewhere. *)
Definition bytes_at (p : Z) (bs : list byte) : Memory :=
  fun a => if (p <=? a) && (a <? p + Z.of_nat (length bs))
           then nth (Z.to_nat (a - p)) bs Byte.x00
           else Byte.x00.

(** A destination slice of 2 bytes, a source slice of 5, and a memory
    that holds the source's 5 bytes. *)
Definition short_dst : SliceCell :=
  {| is_null := false; cell_ptr := {| slice.data := 100; slice.size := 2 |} |}.

Definition long_src : SliceCell :=
  {| is_null := false; cell_ptr := {| slice.data := 200; slice.size := 5 |} |}.

Definition hello : Memory :=
  bytes_at 200 [Byte.x68; Byte.x65; Byte.x6c; Byte.x6c; Byte.x6f].

(** A small sketch for evaluating the definitions: 16 registers, a
    column budget of 17 bytes, at most 2 explicit hashes.  Its
    [set_max_register] marks the register a hash falls into and its
    encoders only report the length of what they would write. *)
Definition small_sketch : HllSetHelper := {|
  HLL_REGISTERS_COUNT := 16;
  HLL_EXPLICLIT_INT64_NUM := 2;
  HLL_COLUMN_DEFAULT_LEN := 17;
  sizeof_SparseIndexType := 2;
  sizeof_SparseValueType := 1;
  sizeof_SparseLengthValueType := 4;
  init_context := fun c =>
    {| has_value := has_value c; has_sparse_or_full := false;
       registers := repeat Byte.x00 16; hash64_set := Some ∅ |};
  fill_set := fun _ _ c => c;
  set_max_register := fun regs n hs =>
    foldr (fun h regs => <[Z.to_nat (h mod Z.of_nat n) := Byte.x01]> regs) regs (elements hs);
  set_full := fun m _ _ n => (m, 1 + Z.of_nat n);
  set_sparse := fun m _ index_to_value => (m, 5 + 3 * Z.of_nat (size index_to_value));
  set_explicit := fun m _ hs => (m, 2 + 8 * Z.of_nat (size hs))
|}.

Definition fresh_context : HllContext :=
  {| has_value := true; has_sparse_or_full := false;
     registers := repeat Byte.x00 16; hash64_set := Some ∅ |}.

Definition three_hashes : HllContext :=
  {| has_value := true; has_sparse_or_full := false;
     registers := repeat Byte.x00 16; hash64_set := Some {[ 1; 2; 3 ]} |}.

(** The least and the greatest of a list of integers, if it has any. *)
Definition minimum (vs : list Z) : option Z := foldl opt_min None (map Some vs).

Definition maximum (vs : list Z) : option Z := foldl opt_max None (map Some vs).

(** The destination after [init] and updates that left it with [acc]. *)
Definition cell_of (t : IntType) (dst : FixedCell) (acc : option Z) : FixedCell :=
  match acc with
  | None => BaseAggregateFuncs.init dst
  | Some v => stored t dst v
  end.

(** [init], then one MIN (MAX) [update] per source row. *)
Definition min_fold (t : IntType) (dst : FixedCell) (srcs : list FixedCell) : FixedCell :=
  foldl (MIN.update (F := IntTraits t)) (BaseAggregateFuncs.init dst) srcs.

Definition max_fold (t : IntType) (dst : FixedCell) (srcs : list FixedCell) : FixedCell :=
  foldl (MAX.update (F := IntTraits t)) (BaseAggregateFuncs.init dst) srcs.

(** The number of non-zero registers among the first [n]. *)
Definition nonzero_registers (regs : list byte) (n : nat) : nat :=
  length (List.filter (fun r => negb (Byte.eqb r Byte.x00)) (take n regs)).

(** An accumulator that a load can return: it is its own wrapped value. *)
Definition fixed (t : IntType) (acc : option Z) : Prop :=
  match acc with
  | None => True
  | Some v => wrap t v = v
  end.

(** [r] differs from [dst] only inside the first [n] value bytes. *)
Definition writes_within (n : nat) (dst r : FixedCell) : Prop :=
  drop n (cell_ptr r) = drop n (cell_ptr dst) /\
  (holds n dst -> length (cell_ptr r) = length (cell_ptr dst)).

(** * Properties *)

(** ** Bytes and integer field types *)

Lemma memcpy_memcpy (dst a b : list byte) (n : nat) :
  (n <= length a)%nat ->
  memcpy (memcpy dst a n) b n = memcpy dst b n.
Proof.
  intros Ha. unfold memcpy. f_equal.
  rewrite drop_app_length'; [reflexivity|].
  rewrite length_take. lia.
Qed.

Lemma memcpy_drop (dst src : list byte) (n : nat) :
  (n <= length src)%nat -> drop n (memcpy dst src n) = drop n dst.
Proof.
  intros Hs. unfold memcpy. apply drop_app_length'.
  rewrite length_take. lia.
Qed.

Lemma memcpy_take (dst src : list byte) (n : nat) :
  (n <= length src)%nat -> take n (memcpy dst src n) = take n src.
Proof.
  intros Hs. unfold memcpy. rewrite take_app_length'; [reflexivity|].
  rewrite length_take. lia.
Qed.

Lemma memcpy_local (bs : list byte) (n : nat) :
  memcpy (local n) bs n = take n bs.
Proof.
  unfold memcpy, local.
  rewrite drop_ge by (rewrite repeat_length; lia).
  apply app_nil_r.
Qed.

Lemma wrap_mod (t : IntType) (z : Z) :
  wrap t z mod 2 ^ bits t = z mod 2 ^ bits t.
Proof.
  unfold wrap. destruct (is_signed t).
  - rewrite Zminus_mod_idemp_l. f_equal. lia.
  - apply Zmod_mod.
Qed.

Lemma wrap_congr (t : IntType) (a b : Z) :
  a mod 2 ^ bits t = b mod 2 ^ bits t -> wrap t a = wrap t b.
Proof.
  intros E. unfold wrap. destruct (is_signed t); [|exact E].
  f_equal. rewrite <- (Zplus_mod_idemp_l a), <- (Zplus_mod_idemp_l b).
  now rewrite E.
Qed.

Lemma wrap_wrap (t : IntType) (z : Z) : wrap t (wrap t z) = wrap t z.
Proof. apply wrap_congr, wrap_mod. Qed.

Lemma wrap_add_l (t : IntType) (a b : Z) : wrap t (wrap t a + b) = wrap t (a + b).
Proof.
  apply wrap_congr.
  rewrite <- Zplus_mod_idemp_l, wrap_mod. apply Zplus_mod_idemp_l.
Qed.

Lemma bits_pos (t : IntType) : (1 <= width t)%nat -> 2 ^ bits t = 2 * 2 ^ (bits t - 1).
Proof.
  intros Hw. unfold bits.
  replace (8 * Z.of_nat (width t)) with (Z.succ (8 * Z.of_nat (width t) - 1)) at 1 by lia.
  apply Z.pow_succ_r. lia.
Qed.

Lemma wrap_small (t : IntType) (z : Z) :
  (1 <= width t)%nat -> in_range t z -> wrap t z = z.
Proof.
  intros Hw. unfold in_range, wrap. pose proof (bits_pos t Hw) as E.
  destruct (is_signed t); intros Hz.
  - rewrite Z.mod_small by lia. lia.
  - apply Z.mod_small. exact Hz.
Qed.

Lemma wrap_in_range (t : IntType) (z : Z) :
  (1 <= width t)%nat -> in_range t (wrap t z).
Proof.
  intros Hw. unfold in_range, wrap. pose proof (bits_pos t Hw) as E.
  assert (0 < 2 ^ bits t) by (apply Z.pow_pos_nonneg; unfold bits; lia).
  destruct (is_signed t).
  - pose proof (Z.mod_pos_bound (z + 2 ^ (bits t - 1)) (2 ^ bits t)). lia.
  - apply Z.mod_pos_bound. lia.
Qed.

Lemma le_split_wrap (t : IntType) (z : Z) :
  le_split (width t) (wrap t z) = le_split (width t) z.
Proof.
  rewrite (le_split_mod (wrap t z)), (le_split_mod z).
  f_equal. replace (Z.of_nat (width t) * 8) with (bits t) by (unfold bits; lia).
  apply wrap_mod.
Qed.

Lemma le_split_congr (t : IntType) (a b : Z) :
  a mod 2 ^ bits t = b mod 2 ^ bits t ->
  le_split (width t) a = le_split (width t) b.
Proof.
  intros E. rewrite (le_split_mod a), (le_split_mod b).
  replace (Z.of_nat (width t) * 8) with (bits t) by (unfold bits; lia).
  now rewrite E.
Qed.

Lemma int_load_take (t : IntType) (bs : list byte) :
  int_load t (take (width t) bs) = int_load t bs.
Proof. unfold int_load. now rewrite take_take, Nat.min_id. Qed.

Lemma int_load_store (t : IntType) (v : Z) (rest : list byte) :
  int_load t (int_store t v ++ rest) = wrap t v.
Proof.
  unfold int_load, int_store.
  rewrite take_app_length' by (symmetry; apply length_le_split).
  rewrite le_combine_split. apply wrap_congr.
  replace (Z.of_nat (width t) * 8) with (bits t) by (unfold bits; lia).
  apply Zmod_mod.
Qed.

Lemma int_store_load (t : IntType) (bs : list byte) :
  (width t <= length bs)%nat ->
  int_store t (int_load t bs) = take (width t) bs.
Proof.
  intros Hl. unfold int_store, int_load.
  rewrite le_split_wrap. apply split_le_combine'.
  rewrite length_take. lia.
Qed.

#[export] Instance IntLaws (t : IntType) : @FieldTypeLaws Z (IntTraits t).
Proof.
  split; simpl.
  - intros v. apply length_le_split.
  - apply int_store_load.
  - intros a b Ha. unfold int_load.
    rewrite take_app_length' by (symmetry; exact Ha).
    now rewrite <- Ha, firstn_all.
Qed.

Lemma holds_int_cell (t : IntType) (v : Z) : holds (width t) (int_cell t v).
Proof. unfold holds, int_cell; simpl. unfold int_store. now rewrite length_le_split. Qed.

Lemma holds_null_cell (t : IntType) : holds (width t) (null_cell t).
Proof. unfold holds, null_cell; simpl. unfold int_store. now rewrite length_le_split. Qed.

(** ** A null source *)




(** ** Loads and stores through a typed pointer *)

Section Typed.
Context {CppType : Type} {F : FieldTypeTraits CppType} {L : FieldTypeLaws CppType}.

(** Assigning the value read from a cell copies the cell's bytes. *)
Lemma assign_load (dst src : FixedCell) :
  holds sizeof src ->
  assign dst (load (cell_ptr src)) = set_cell dst (memcpy (cell_ptr dst) (cell_ptr src) sizeof).
Proof.
  intros Hs. unfold assign. f_equal. unfold memcpy.
  rewrite store_load by exact Hs. now rewrite take_take, Nat.min_id.
Qed.

Lemma load_assign (dst : FixedCell) (v : CppType) :
  load (cell_ptr (assign dst v)) = load (store v).
Proof.
  unfold assign, memcpy; simpl.
  rewrite <- (store_length v), firstn_all.
  apply load_prefix, store_length.
Qed.

Lemma load_store_load (src : FixedCell) :
  holds sizeof src -> load (store (load (cell_ptr src))) = load (cell_ptr src).
Proof.
  intros Hs. rewrite store_load by exact Hs.
  rewrite <- (take_drop sizeof (cell_ptr src)) at 2.
  symmetry. apply load_prefix. rewrite length_take. unfold holds in Hs. lia.
Qed.

(** A load sees only the bytes that a copy of a whole value brought. *)
Lemma load_memcpy (dst : list byte) (src : FixedCell) :
  holds sizeof src -> load (memcpy dst (cell_ptr src) sizeof) = load (cell_ptr src).
Proof.
  intros Hs. unfold memcpy.
  rewrite load_prefix by (rewrite length_take; unfold holds in Hs; lia).
  rewrite <- (take_drop sizeof (cell_ptr src)) at 2.
  symmetry. apply load_prefix. rewrite length_take. unfold holds in Hs. lia.
Qed.
End Typed.

(** ** The LARGEINT specialisations *)

Lemma sum_largeint_generic (dst src : FixedCell) :
  holds 16 src ->
  SUM_LARGEINT.update dst src = SUM.update (F := IntTraits LARGEINT) dst src.
Proof.
  intros Hs.
  pose proof (assign_load (F := IntTraits LARGEINT)) as Hcopy. simpl in Hcopy.
  unfold SUM_LARGEINT.update, SUM.update.
  destruct (is_null src); [reflexivity|].
  rewrite !memcpy_local. change 16%nat with (width LARGEINT).
  rewrite !int_load_take. cbn [load cpp_add IntTraits sizeof].
  destruct (is_null dst); [|reflexivity].
  now rewrite Hcopy by exact Hs.
Qed.

(** C7: on a source cell that holds a whole 128-bit value, the LARGEINT
    specialisations of MIN, MAX and SUM, which go through [memcpy] and
    local variables, leave the destination in the same state (null flag
    and value bytes) as the generic templates instantiated at the 128-bit
    integer type, for every destination cell. *)
Theorem largeint_update_refines_generic (dst src : FixedCell) :
  holds 16 src ->
  MIN_LARGEINT.update dst src = MIN.update (F := IntTraits LARGEINT) dst src /\
  MAX_LARGEINT.update dst src = MAX.update (F := IntTraits LARGEINT) dst src /\
  SUM_LARGEINT.update dst src = SUM.update (F := IntTraits LARGEINT) dst src.
Proof.
  intros Hs.
  pose proof (assign_load (F := IntTraits LARGEINT)) as Hcopy. simpl in Hcopy.
  split; [|split; [|now apply sum_largeint_generic]].
  - unfold MIN_LARGEINT.update, MIN.update.
    destruct (is_null src); [reflexivity|].
    rewrite !memcpy_local. change 16%nat with (width LARGEINT).
    rewrite !int_load_take. cbn [load cpp_lt IntTraits sizeof].
    destruct (is_null dst); cbn [orb].
    + now rewrite Hcopy by exact Hs.
    + destruct (_ <? _); [|reflexivity]. now rewrite Hcopy by exact Hs.
  - unfold MAX_LARGEINT.update, MAX.update, cpp_gt.
    destruct (is_null src); [reflexivity|].
    rewrite !memcpy_local. change 16%nat with (width LARGEINT).
    rewrite !int_load_take. cbn [load cpp_lt IntTraits sizeof].
    rewrite Z.gtb_ltb.
    destruct (is_null dst); cbn [orb].
    + now rewrite Hcopy by exact Hs.
    + destruct (_ <? _); [|reflexivity]. now rewrite Hcopy by exact Hs.
Qed.

Lemma largeint_update_refines_generic_witness :
  MIN_LARGEINT.update (int_cell LARGEINT 7) (int_cell LARGEINT (-3))
  = MIN.update (F := IntTraits LARGEINT) (int_cell LARGEINT 7) (int_cell LARGEINT (-3)) /\
  MAX_LARGEINT.update (int_cell LARGEINT 7) (int_cell LARGEINT (-3))
  = MAX.update (F := IntTraits LARGEINT) (int_cell LARGEINT 7) (int_cell LARGEINT (-3)) /\
  SUM_LARGEINT.update (int_cell LARGEINT 7) (int_cell LARGEINT (-3))
  = SUM.update (F := IntTraits LARGEINT) (int_cell LARGEINT 7) (int_cell LARGEINT (-3)).
Proof.
  apply (largeint_update_refines_generic (int_cell LARGEINT 7) (int_cell LARGEINT (-3))).
  unfold holds. simpl. lia.
Defined.

(** ** MIN and MAX *)

Section MinMax.
Context {CppType : Type} {F : FieldTypeTraits CppType} {L : FieldTypeLaws CppType}.

Lemma min_update_load (dst src : FixedCell) :
  is_null src = false -> holds sizeof src ->
  is_null (MIN.update dst src) = false /\
  load (cell_ptr (MIN.update dst src))
  = if is_null dst then load (cell_ptr src)
    else if cpp_lt (load (cell_ptr src)) (load (cell_ptr dst))
         then load (cell_ptr src) else load (cell_ptr dst).
Proof.
  intros Hn Hs. unfold MIN.update. rewrite Hn.
  destruct (is_null dst) eqn:Hd; cbn [orb].
  - rewrite load_assign, load_store_load by exact Hs. now split.
  - destruct (cpp_lt _ _).
    + rewrite load_assign, load_store_load by exact Hs. now split.
    + now split.
Qed.

Lemma max_update_load (dst src : FixedCell) :
  is_null src = false -> holds sizeof src ->
  is_null (MAX.update dst src) = false /\
  load (cell_ptr (MAX.update dst src))
  = if is_null dst then load (cell_ptr src)
    else if cpp_lt (load (cell_ptr dst)) (load (cell_ptr src))
         then load (cell_ptr src) else load (cell_ptr dst).
Proof.
  intros Hn Hs. unfold MAX.update, cpp_gt. rewrite Hn.
  destruct (is_null dst) eqn:Hd; cbn [orb].
  - rewrite load_assign, load_store_load by exact Hs. now split.
  - destruct (cpp_lt _ _).
    + rewrite load_assign, load_store_load by exact Hs. now split.
    + now split.
Qed.

Lemma min_fold_null (dst : FixedCell) (srcs : list FixedCell) :
  Forall (fun s => is_null s = true) srcs -> foldl MIN.update dst srcs = dst.
Proof.
  intros Hall. revert dst. induction Hall as [|s srcs Hs _ IH]; intros dst; simpl.
  - reflexivity.
  - unfold MIN.update at 2. rewrite Hs. apply IH.
Qed.

Lemma max_fold_null (dst : FixedCell) (srcs : list FixedCell) :
  Forall (fun s => is_null s = true) srcs -> foldl MAX.update dst srcs = dst.
Proof.
  intros Hall. revert dst. induction Hall as [|s srcs Hs _ IH]; intros dst; simpl.
  - reflexivity.
  - unfold MAX.update at 2. rewrite Hs. apply IH.
Qed.
End MinMax.

Lemma value_int_cell (t : IntType) (v : Z) : value t (int_cell t v) = Some (wrap t v).
Proof.
  unfold value, int_cell; simpl. f_equal.
  rewrite <- (app_nil_r (int_store t v)). apply int_load_store.
Qed.

Lemma value_null_cell (t : IntType) : value t (null_cell t) = None.
Proof. reflexivity. Qed.

Lemma min_update_value (t : IntType) (dst src : FixedCell) :
  holds (width t) src ->
  value t (MIN.update (F := IntTraits t) dst src) = opt_min (value t dst) (value t src).
Proof.
  intros Hs. unfold value at 3. destruct (is_null src) eqn:Hn.
  - unfold MIN.update. rewrite Hn. now destruct (value t dst).
  - destruct (min_update_load (F := IntTraits t) dst src Hn Hs) as [E1 E2].
    unfold value. rewrite E1. simpl in E2. rewrite E2.
    destruct (is_null dst); simpl; [reflexivity|]. f_equal.
    destruct (Z.ltb_spec (int_load t (cell_ptr src)) (int_load t (cell_ptr dst))); lia.
Qed.

Lemma max_update_value (t : IntType) (dst src : FixedCell) :
  holds (width t) src ->
  value t (MAX.update (F := IntTraits t) dst src) = opt_max (value t dst) (value t src).
Proof.
  intros Hs. unfold value at 3. destruct (is_null src) eqn:Hn.
  - unfold MAX.update. rewrite Hn. now destruct (value t dst).
  - destruct (max_update_load (F := IntTraits t) dst src Hn Hs) as [E1 E2].
    unfold value. rewrite E1. simpl in E2. rewrite E2.
    destruct (is_null dst); simpl; [reflexivity|]. f_equal.
    destruct (Z.ltb_spec (int_load t (cell_ptr dst)) (int_load t (cell_ptr src))); lia.
Qed.

Lemma small_in_range (t : IntType) (z : Z) :
  (1 <= width t)%nat -> 0 <= z < 128 -> in_range t z.
Proof.
  intros Hw Hz. unfold in_range.
  assert (2 ^ 7 <= 2 ^ (bits t - 1)) by (apply Z.pow_le_mono_r; unfold bits; lia).
  assert (2 ^ (bits t - 1) <= 2 ^ bits t) by (apply Z.pow_le_mono_r; unfold bits; lia).
  change (2 ^ 7) with 128 in *.
  destruct (is_signed t); lia.
Qed.

(** C4: MIN (MAX) update on a non-null source adopts the source value
    when the destination is null and otherwise keeps the smaller (larger)
    of the two values under the type's [operator<]; the destination is
    non-null afterwards.  On integer columns the value kept is [Z.min]
    ([Z.max]).  From the initialised, null destination, folding
    [5; null; 2; 9] gives 2 for MIN and 9 for MAX, and folding only null
    sources leaves the destination as [init] made it: null. *)
Theorem min_max_update :
  (forall (CppType : Type) (F : FieldTypeTraits CppType) (L : FieldTypeLaws CppType)
          (dst src : FixedCell),
      is_null src = false -> holds sizeof src ->
      (is_null (MIN.update dst src) = false /\
       load (cell_ptr (MIN.update dst src))
       = if is_null dst then load (cell_ptr src)
         else if cpp_lt (load (cell_ptr src)) (load (cell_ptr dst))
              then load (cell_ptr src) else load (cell_ptr dst)) /\
      (is_null (MAX.update dst src) = false /\
       load (cell_ptr (MAX.update dst src))
       = if is_null dst then load (cell_ptr src)
         else if cpp_gt (load (cell_ptr src)) (load (cell_ptr dst))
              then load (cell_ptr src) else load (cell_ptr dst))) /\
  (forall (t : IntType) (dst src : FixedCell),
      holds (width t) src ->
      value t (MIN.update (F := IntTraits t) dst src) = opt_min (value t dst) (value t src) /\
      value t (MAX.update (F := IntTraits t) dst src) = opt_max (value t dst) (value t src)) /\
  (forall (t : IntType) (dst : FixedCell),
      (1 <= width t)%nat ->
      let srcs := [int_cell t 5; null_cell t; int_cell t 2; int_cell t 9] in
      value t (foldl (MIN.update (F := IntTraits t)) (BaseAggregateFuncs.init dst) srcs) = Some 2 /\
      value t (foldl (MAX.update (F := IntTraits t)) (BaseAggregateFuncs.init dst) srcs) = Some 9) /\
  (forall (CppType : Type) (F : FieldTypeTraits CppType) (dst : FixedCell)
          (srcs : list FixedCell),
      Forall (fun s => is_null s = true) srcs ->
      foldl (MIN.update (CppType := CppType)) (BaseAggregateFuncs.init dst) srcs
      = BaseAggregateFuncs.init dst /\
      foldl (MAX.update (CppType := CppType)) (BaseAggregateFuncs.init dst) srcs
      = BaseAggregateFuncs.init dst /\
      is_null (BaseAggregateFuncs.init dst) = true).
Proof.
  split; [|split; [|split]].
  - intros CppType F L dst src Hn Hs. split.
    + now apply min_update_load.
    + now apply max_update_load.
  - intros t dst src Hs. split.
    + now apply min_update_value.
    + now apply max_update_value.
  - intros t dst Hw srcs. subst srcs. cbn [foldl].
    pose proof (holds_int_cell t) as Hc. pose proof (holds_null_cell t) as Hz.
    rewrite !min_update_value, !max_update_value by auto.
    rewrite !value_int_cell, value_null_cell.
    rewrite !wrap_small by (auto; apply small_in_range; auto; lia).
    split; reflexivity.
  - intros CppType F dst srcs Hall.
    rewrite min_fold_null, max_fold_null by exact Hall. now repeat split.
Qed.

Lemma min_max_update_witness :
  value INT (foldl (MIN.update (F := IntTraits INT)) (BaseAggregateFuncs.init (int_cell INT 77))
               [int_cell INT 5; null_cell INT; int_cell INT 2; int_cell INT 9]) = Some 2 /\
  value INT (foldl (MAX.update (F := IntTraits INT)) (BaseAggregateFuncs.init (int_cell INT 77))
               [int_cell INT 5; null_cell INT; int_cell INT 2; int_cell INT 9]) = Some 9.
Proof.
  destruct min_max_update as (_ & _ & Hfold & _).
  apply (Hfold INT (int_cell INT 77)). simpl. lia.
Defined.

(** ** SUM *)

Lemma stored_bytes (t : IntType) (dst : FixedCell) (v : Z) :
  cell_ptr (stored t dst v) = int_store t v ++ drop (width t) (cell_ptr dst).
Proof.
  unfold stored, memcpy; simpl.
  now rewrite take_ge by (unfold int_store; rewrite length_le_split; lia).
Qed.

Lemma value_stored (t : IntType) (dst : FixedCell) (v : Z) :
  value t (stored t dst v) = Some (wrap t v).
Proof.
  unfold value. change (is_null (stored t dst v)) with false.
  now rewrite stored_bytes, int_load_store.
Qed.

Lemma stored_congr (t : IntType) (dst : FixedCell) (a b : Z) :
  a mod 2 ^ bits t = b mod 2 ^ bits t -> stored t dst a = stored t dst b.
Proof.
  intros E. unfold stored, int_store. now rewrite (le_split_congr t a b E).
Qed.

Lemma holds_stored (t : IntType) (dst : FixedCell) (v : Z) :
  holds (width t) (stored t dst v).
Proof.
  unfold holds. rewrite stored_bytes, length_app. unfold int_store.
  rewrite length_le_split. lia.
Qed.

Lemma values_cons_null (t : IntType) (s : FixedCell) (srcs : list FixedCell) :
  is_null s = true -> values t (s :: srcs) = values t srcs.
Proof. intros Hn. unfold values; simpl. unfold value at 1. now rewrite Hn. Qed.

Lemma values_cons (t : IntType) (s : FixedCell) (srcs : list FixedCell) :
  is_null s = false ->
  values t (s :: srcs) = int_load t (cell_ptr s) :: values t srcs.
Proof. intros Hn. unfold values; simpl. unfold value at 1. now rewrite Hn. Qed.

(** One step on a null destination: the source is adopted. *)
Lemma sum_update_null (t : IntType) (dst src : FixedCell) :
  is_null dst = true -> is_null src = false -> holds (width t) src ->
  SUM.update (F := IntTraits t) dst src = stored t dst (int_load t (cell_ptr src)).
Proof.
  intros Hd Hn Hs. unfold SUM.update. now rewrite Hn, Hd.
Qed.

(** One step on an accumulator: the source is added. *)
Lemma sum_update_stored (t : IntType) (dst src : FixedCell) (x : Z) :
  is_null src = false ->
  SUM.update (F := IntTraits t) (stored t dst x) src
  = stored t dst (x + int_load t (cell_ptr src)).
Proof.
  intros Hn. unfold SUM.update. rewrite Hn.
  change (is_null (stored t dst x)) with false. cbv iota.
  unfold assign. cbn [load store cpp_add sizeof IntTraits set_cell is_null cell_ptr].
  rewrite stored_bytes at 2. rewrite int_load_store.
  rewrite <- (stored_congr t dst _ _ (wrap_mod t (x + int_load t (cell_ptr src)))).
  rewrite wrap_add_l.
  unfold stored, set_cell. cbn [cell_ptr is_null]. f_equal.
  apply memcpy_memcpy. unfold int_store. rewrite length_le_split. lia.
Qed.

Lemma sum_fold_stored (t : IntType) (dst : FixedCell) (srcs : list FixedCell) (x : Z) :
  foldl (SUM.update (F := IntTraits t)) (stored t dst x) srcs
  = stored t dst (x + sum_list (values t srcs)).
Proof.
  revert x. induction srcs as [|s srcs IH]; intros x; cbn [foldl].
  - simpl. f_equal. lia.
  - destruct (is_null s) eqn:Hn.
    + rewrite values_cons_null by exact Hn.
      unfold SUM.update at 2. rewrite Hn. apply IH.
    + rewrite values_cons by exact Hn.
      rewrite sum_update_stored by exact Hn. rewrite IH.
      cbn [sum_list foldr]. f_equal. fold (sum_list (values t srcs)). lia.
Qed.

(** The whole fold from a null destination. *)
Lemma sum_fold_null (t : IntType) (dst : FixedCell) (srcs : list FixedCell) :
  is_null dst = true -> Forall (holds (width t)) srcs ->
  foldl (SUM.update (F := IntTraits t)) dst srcs
  = match values t srcs with
    | [] => dst
    | _ :: _ => stored t dst (sum_list (values t srcs))
    end.
Proof.
  intros Hd Hall. induction Hall as [|s srcs Hs _ IH]; cbn [foldl].
  - reflexivity.
  - destruct (is_null s) eqn:Hn.
    + rewrite values_cons_null by exact Hn.
      unfold SUM.update at 2. rewrite Hn. exact IH.
    + rewrite values_cons by exact Hn.
      rewrite sum_update_null by assumption. rewrite sum_fold_stored. reflexivity.
Qed.

Lemma sum_list_perm (l1 l2 : list Z) : Permutation l1 l2 -> sum_list l1 = sum_list l2.
Proof. induction 1; simpl; lia. Qed.

Lemma sum_list_app (l1 l2 : list Z) : sum_list (l1 ++ l2) = sum_list l1 + sum_list l2.
Proof. induction l1; simpl; lia. Qed.

Lemma values_perm (t : IntType) (l1 l2 : list FixedCell) :
  Permutation l1 l2 -> Permutation (values t l1) (values t l2).
Proof.
  unfold values. induction 1; simpl.
  - constructor.
  - destruct (value t x); [now constructor | assumption].
  - destruct (value t x), (value t y); try reflexivity; constructor.
  - etransitivity; eassumption.
Qed.

Lemma values_app (t : IntType) (l1 l2 : list FixedCell) :
  values t (l1 ++ l2) = values t l1 ++ values t l2.
Proof. apply omap_app. Qed.

Lemma values_nil (t : IntType) (srcs : list FixedCell) :
  Forall (fun s => is_null s = true) srcs -> values t srcs = [].
Proof.
  induction 1 as [|s srcs Hs _ IH]; [reflexivity|].
  now rewrite values_cons_null.
Qed.

Lemma sum_fold_init (t : IntType) (dst : FixedCell) (srcs : list FixedCell) :
  Forall (holds (width t)) srcs ->
  sum_fold t dst srcs
  = match values t srcs with
    | [] => BaseAggregateFuncs.init dst
    | _ :: _ => stored t dst (sum_list (values t srcs))
    end.
Proof.
  intros Hall. unfold sum_fold. now rewrite sum_fold_null.
Qed.

Lemma sum_fold_group (t : IntType) (dst : FixedCell) (l1 l2 : list FixedCell) :
  Forall (holds (width t)) l1 -> Forall (holds (width t)) l2 ->
  sum_fold t dst (l1 ++ l2)
  = SUM.update (F := IntTraits t) (sum_fold t dst l1) (sum_fold t dst l2).
Proof.
  intros H1 H2.
  rewrite !sum_fold_init by (try apply Forall_app; auto).
  rewrite values_app, sum_list_app.
  destruct (values t l2) as [|b vs2] eqn:E2.
  - rewrite app_nil_r. unfold SUM.update. cbn [is_null BaseAggregateFuncs.init set_is_null].
    destruct (values t l1); [reflexivity|]. f_equal. simpl. lia.
  - set (s2 := sum_list (b :: vs2)).
    assert (Hl : int_load t (cell_ptr (stored t dst s2)) = wrap t s2)
      by (rewrite stored_bytes; apply int_load_store).
    destruct (values t l1) as [|a vs1] eqn:E1.
    + rewrite sum_update_null by (auto using holds_stored).
      rewrite Hl. cbn [app sum_list foldr]. fold (sum_list (b :: vs2)). fold s2.
      change (stored t (BaseAggregateFuncs.init dst) (wrap t s2)) with (stored t dst (wrap t s2)).
      apply stored_congr. rewrite wrap_mod. f_equal; lia.
    + rewrite sum_update_stored by reflexivity. rewrite Hl.
      cbn [app]. apply stored_congr.
      rewrite (Zplus_mod _ (wrap t s2)), wrap_mod. now rewrite <- Zplus_mod.
Qed.

(** C5, as the code has it: from the initialised (null) destination,
    folding integer sources by SUM update and finalising gives a null
    result when every source is null, and otherwise the arithmetic sum of
    the non-null values wrapped to the type's width: the sum itself
    whenever it fits the type.  The final cell does not depend on the
    order of the sources nor on how they are grouped into partial
    aggregates that are then folded by update. *)
Theorem sum_fold_wrapped_sum (t : IntType) (dst : FixedCell) (srcs : list FixedCell) :
  Forall (holds (width t)) srcs ->
  let final := BaseAggregateFuncs.finalize (sum_fold t dst srcs) in
  (Forall (fun s => is_null s = true) srcs ->
     final = BaseAggregateFuncs.init dst /\ is_null final = true) /\
  (values t srcs <> [] ->
     value t final = Some (wrap t (sum_list (values t srcs))) /\
     ((1 <= width t)%nat -> in_range t (sum_list (values t srcs)) ->
      value t final = Some (sum_list (values t srcs)))) /\
  (forall srcs' : list FixedCell,
     Permutation srcs srcs' ->
     BaseAggregateFuncs.finalize (sum_fold t dst srcs') = final) /\
  (forall l1 l2 : list FixedCell,
     srcs = l1 ++ l2 ->
     final = SUM.update (F := IntTraits t) (sum_fold t dst l1) (sum_fold t dst l2)).
Proof.
  intros Hall final. subst final. unfold BaseAggregateFuncs.finalize.
  repeat split.
  - rewrite sum_fold_init by exact Hall. now rewrite values_nil.
  - rewrite sum_fold_init by exact Hall. now rewrite values_nil.
  - rewrite sum_fold_init by exact Hall.
    destruct (values t srcs) eqn:E; [congruence|]. apply value_stored.
  - intros Hw Hr. rewrite sum_fold_init by exact Hall.
    destruct (values t srcs) eqn:E; [congruence|].
    rewrite value_stored. f_equal. now apply wrap_small.
  - intros srcs' Hp.
    assert (Hall' : Forall (holds (width t)) srcs')
      by (rewrite <- Hp; exact Hall).
    rewrite !sum_fold_init by assumption.
    pose proof (values_perm t _ _ Hp) as Hv.
    rewrite (sum_list_perm _ _ Hv).
    destruct (values t srcs) eqn:E.
    + apply Permutation_nil in Hv. now rewrite Hv.
    + destruct (values t srcs') eqn:E'; [|reflexivity].
      symmetry in Hv. now apply Permutation_nil in Hv.
  - intros l1 l2 ->. apply Forall_app in Hall as [H1 H2].
    now apply sum_fold_group.
Qed.

Lemma sum_fold_wrapped_sum_witness :
  value INT (BaseAggregateFuncs.finalize
               (sum_fold INT (int_cell INT 77) [int_cell INT 5; null_cell INT; int_cell INT 2]))
  = Some (wrap INT (sum_list (values INT [int_cell INT 5; null_cell INT; int_cell INT 2]))).
Proof.
  refine (proj1 (proj1 (proj2
    (sum_fold_wrapped_sum INT (int_cell INT 77)
       [int_cell INT 5; null_cell INT; int_cell INT 2] _)) _)).
  - repeat constructor; unfold holds; simpl; lia.
  - vm_compute. discriminate.
Defined.

(** C5 as stated fails once the sum leaves the type's range: on a
    TINYINT column 127 and 1 fold to -128, not to 128. *)
Lemma sum_fold_not_arithmetic_sum :
  values TINYINT [int_cell TINYINT 127; int_cell TINYINT 1] = [127; 1] /\
  value TINYINT (BaseAggregateFuncs.finalize
                   (sum_fold TINYINT (null_cell TINYINT)
                      [int_cell TINYINT 127; int_cell TINYINT 1]))
  <> Some (127 + 1).
Proof. split; [reflexivity | vm_compute; discriminate]. Qed.

Lemma sum_update_value (t : IntType) (dst src : FixedCell) :
  is_null dst = false -> is_null src = false ->
  value t (SUM.update (F := IntTraits t) dst src)
  = Some (wrap t (int_load t (cell_ptr dst) + int_load t (cell_ptr src))).
Proof.
  intros Hd Hn. unfold SUM.update. rewrite Hn, Hd.
  unfold value, assign. cbn [set_cell is_null cell_ptr]. rewrite Hd. f_equal.
  cbn [load store cpp_add sizeof IntTraits]. unfold memcpy.
  rewrite take_ge by (unfold int_store; rewrite length_le_split; lia).
  rewrite int_load_store. apply wrap_wrap.
Qed.

(** C6: SUM update on two non-null integer cells checks nothing: it
    always returns a non-null destination whose value is the sum of the
    two values wrapped to the type's width [w], equal to the sum modulo
    [2^w] and inside the type's range, whether or not the sum itself is.
    The LARGEINT specialisation does the same at 128 bits.  On an INT
    column 2147483647 + 1 is stored as -2147483648. *)
Theorem sum_update_wraps (t : IntType) (dst src : FixedCell) :
  is_null dst = false -> is_null src = false ->
  let a := int_load t (cell_ptr dst) in
  let b := int_load t (cell_ptr src) in
  (exists r : Z,
     value t (SUM.update (F := IntTraits t) dst src) = Some r /\
     r = wrap t (a + b) /\
     r mod 2 ^ bits t = (a + b) mod 2 ^ bits t /\
     ((1 <= width t)%nat -> in_range t r) /\
     ((1 <= width t)%nat -> in_range t (a + b) -> r = a + b)) /\
  (holds 16 src ->
   value LARGEINT (SUM_LARGEINT.update dst src)
   = Some (wrap LARGEINT (int_load LARGEINT (cell_ptr dst) + int_load LARGEINT (cell_ptr src)))) /\
  value INT (SUM.update (F := IntTraits INT) (int_cell INT 2147483647) (int_cell INT 1))
  = Some (-2147483648).
Proof.
  intros Hd Hn a b. split; [|split].
  - exists (wrap t (a + b)). split; [|split; [|split; [|split]]].
    + now apply sum_update_value.
    + reflexivity.
    + apply wrap_mod.
    + intros Hw. now apply wrap_in_range.
    + intros Hw Hr. now apply wrap_small.
  - intros Hs. rewrite sum_largeint_generic by exact Hs.
    now apply sum_update_value.
  - vm_compute. reflexivity.
Qed.

Lemma sum_update_wraps_witness :
  exists r : Z,
    value TINYINT (SUM.update (F := IntTraits TINYINT) (int_cell TINYINT 127) (int_cell TINYINT 1))
    = Some r /\ r = -128.
Proof.
  destruct (sum_update_wraps TINYINT (int_cell TINYINT 127) (int_cell TINYINT 1)
              eq_refl eq_refl) as [(r & Hv & Hr & _) _].
  exists r. split; [exact Hv|]. rewrite Hr. vm_compute. reflexivity.
Defined.

(** ** REPLACE *)

Section Replace.
Context {CppType : Type} {F : FieldTypeTraits CppType}.

Lemma replace_fold_snoc (dst : FixedCell) (srcs : list FixedCell) (c : FixedCell) :
  replace_fold dst (srcs ++ [c]) = REPLACE.update (CppType := CppType) (replace_fold dst srcs) c.
Proof. unfold replace_fold. now rewrite foldl_app. Qed.

Lemma last_non_null_snoc (srcs : list FixedCell) (c : FixedCell) :
  last_non_null (srcs ++ [c])
  = if is_null c then last_non_null srcs else Some c.
Proof. unfold last_non_null. now rewrite foldl_app. Qed.

Lemma replace_fold_bytes (dst : FixedCell) (srcs : list FixedCell) :
  Forall (holds sizeof) srcs ->
  cell_ptr (replace_fold dst srcs)
  = match last_non_null srcs with
    | Some s => memcpy (cell_ptr dst) (cell_ptr s) sizeof
    | None => cell_ptr dst
    end /\
  match last_non_null srcs with
  | Some s => holds sizeof s
  | None => True
  end.
Proof.
  induction srcs as [|c srcs IH] using rev_ind; intros Hall.
  - now split.
  - apply Forall_app in Hall as [Hall Hc]. apply Forall_inv in Hc.
    destruct (IH Hall) as [Eb Hh].
    rewrite replace_fold_snoc, last_non_null_snoc.
    unfold REPLACE.update. destruct (is_null c); cbn [negb set_is_null set_cell cell_ptr].
    + now split.
    + split; [|exact Hc]. rewrite Eb.
      destruct (last_non_null srcs); [|reflexivity].
      now apply memcpy_memcpy.
Qed.

Lemma replace_fold_null (dst : FixedCell) (srcs : list FixedCell) (c : FixedCell) :
  is_null (replace_fold dst (srcs ++ [c])) = is_null c.
Proof.
  rewrite replace_fold_snoc. unfold REPLACE.update.
  now destruct (is_null c).
Qed.
End Replace.

Lemma last_non_null_found (before after : list FixedCell) (s : FixedCell) :
  is_null s = false -> Forall (fun x => is_null x = true) after ->
  last_non_null (before ++ s :: after) = Some s.
Proof.
  intros Hs Hall. unfold last_non_null. rewrite foldl_app. cbn [foldl]. rewrite Hs.
  induction Hall as [|x after Hx _ IH]; cbn [foldl]; [reflexivity|].
  now rewrite Hx.
Qed.

Lemma last_non_null_none (srcs : list FixedCell) :
  Forall (fun x => is_null x = true) srcs -> last_non_null srcs = None.
Proof.
  unfold last_non_null. induction 1 as [|x srcs Hx _ IH]; cbn [foldl]; [reflexivity|].
  now rewrite Hx.
Qed.

(** C8: REPLACE update copies the source's null flag and, when the
    source is not null, its value.  After a non-empty sequence of updates
    the destination's null flag is that of the last source.  Its value is
    that of the last non-null source [s], the one followed by null
    sources only: the destination's first [sizeof(CppType)] bytes are
    those of [s], a load from it returns what a load from [s] returns,
    and the bytes after the value are those the destination had.  When
    every source was null the destination keeps its own bytes.  In
    particular, when the last source is not null the destination is
    non-null and holds the last source's value, whatever the earlier
    sources and their null flags were. *)
Theorem replace_last_write_wins
    (CppType : Type) (F : FieldTypeTraits CppType) (L : FieldTypeLaws CppType)
    (dst : FixedCell) (front : list FixedCell) (c : FixedCell) :
  Forall (holds sizeof) (front ++ [c]) ->
  let final := replace_fold (CppType := CppType) dst (front ++ [c]) in
  is_null final = is_null c /\
  (forall (before after : list FixedCell) (s : FixedCell),
     front ++ [c] = before ++ s :: after ->
     is_null s = false ->
     Forall (fun x => is_null x = true) after ->
     take sizeof (cell_ptr final) = take sizeof (cell_ptr s) /\
     load (cell_ptr final) = load (cell_ptr s) /\
     drop sizeof (cell_ptr final) = drop sizeof (cell_ptr dst)) /\
  (Forall (fun x => is_null x = true) (front ++ [c]) ->
   cell_ptr final = cell_ptr dst) /\
  (is_null c = false ->
   is_null final = false /\
   take sizeof (cell_ptr final) = take sizeof (cell_ptr c) /\
   load (cell_ptr final) = load (cell_ptr c)).
Proof.
  intros Hall final. subst final.
  pose proof (replace_fold_null dst front c) as En.
  destruct (replace_fold_bytes dst (front ++ [c]) Hall) as [Eb Hh].
  assert (Hlast : forall (before after : list FixedCell) (s : FixedCell),
             front ++ [c] = before ++ s :: after ->
             is_null s = false ->
             Forall (fun x => is_null x = true) after ->
             take sizeof (cell_ptr (replace_fold dst (front ++ [c])))
             = take sizeof (cell_ptr s) /\
             load (cell_ptr (replace_fold dst (front ++ [c]))) = load (cell_ptr s) /\
             drop sizeof (cell_ptr (replace_fold dst (front ++ [c])))
             = drop sizeof (cell_ptr dst)).
  { intros before after s Esplit Hs Hafter.
    rewrite Esplit, (last_non_null_found before after s Hs Hafter) in Eb, Hh.
    rewrite <- Esplit in Eb. rewrite Eb.
    split; [now apply memcpy_take|]. split; [now apply load_memcpy|].
    now apply memcpy_drop. }
  split; [exact En|]. split; [exact Hlast|]. split.
  - intros Hnull. now rewrite (last_non_null_none _ Hnull) in Eb.
  - intros Hc. rewrite En. split; [exact Hc|].
    destruct (Hlast front [] c eq_refl Hc (List.Forall_nil _)) as (Et & El & _).
    now split.
Qed.

Lemma replace_last_write_wins_witness :
  is_null (replace_fold (F := IntTraits INT) (null_cell INT)
             ([null_cell INT; int_cell INT 8] ++ [int_cell INT 3])) = false /\
  take 4 (cell_ptr (replace_fold (F := IntTraits INT) (null_cell INT)
                      ([null_cell INT; int_cell INT 8] ++ [int_cell INT 3])))
  = take 4 (cell_ptr (int_cell INT 3)) /\
  int_load INT (cell_ptr (replace_fold (F := IntTraits INT) (null_cell INT)
                            ([null_cell INT; int_cell INT 8] ++ [int_cell INT 3])))
  = int_load INT (cell_ptr (int_cell INT 3)).
Proof.
  refine (proj2 (proj2 (proj2
    (replace_last_write_wins Z (IntTraits INT) (IntLaws INT) (null_cell INT)
       [null_cell INT; int_cell INT 8] (int_cell INT 3) _))) eq_refl).
  repeat constructor; unfold holds; simpl; lia.
Defined.

(** Folding [null; 8; 3] and [7; 8; null] on an INT column. *)
Example replace_fold_last_value :
  replace_fold (F := IntTraits INT) (null_cell INT)
    [null_cell INT; int_cell INT 8; int_cell INT 3]
  = {| is_null := false; cell_ptr := [Byte.x03; Byte.x00; Byte.x00; Byte.x00] |} /\
  replace_fold (F := IntTraits INT) (null_cell INT)
    [int_cell INT 7; int_cell INT 8; null_cell INT]
  = {| is_null := true; cell_ptr := [Byte.x08; Byte.x00; Byte.x00; Byte.x00] |}.
Proof. split; vm_compute; reflexivity. Qed.

(** ** REPLACE on CHAR and VARCHAR *)

Lemma memory_copy_inside (m : Memory) (dst src n i : Z) :
  0 <= i < n -> memory_copy m dst src n (dst + i) = m (src + i).
Proof.
  intros Hi. unfold memory_copy.
  destruct (Z.leb_spec dst (dst + i)); [|lia].
  destruct (Z.ltb_spec (dst + i) (dst + n)); [|lia].
  simpl. f_equal. lia.
Qed.

Lemma memory_copy_outside (m : Memory) (dst src n a : Z) :
  ~ (dst <= a < dst + n) -> memory_copy m dst src n a = m a.
Proof.
  intros Ha. unfold memory_copy.
  destruct (Z.leb_spec dst a); [|reflexivity].
  destruct (Z.ltb_spec a (dst + n)); [lia|reflexivity].
Qed.

(** C1, as the code has it: with a null arena and a non-null source
    longer than the destination slice, update does not truncate.  It
    keeps the destination's buffer, copies all [size] bytes of the source
    to it, the bytes past the destination's former size included, writes
    nothing else, and records the source's size, larger than the former
    one, as the destination's size.  The arena stays null. *)
Theorem replace_char_null_arena_copies_all
    (Arena : Type) (A : ArenaOps Arena) (dst src : SliceCell) (m : Memory) :
  is_null src = false ->
  slice.size (cell_ptr dst) < slice.size (cell_ptr src) ->
  exists (dst' : SliceCell) (m' : Memory),
    REPLACE_CHAR.update (Arena := Arena) dst src None m = (dst', None, m') /\
    is_null dst' = false /\
    slice.data (cell_ptr dst') = slice.data (cell_ptr dst) /\
    slice.size (cell_ptr dst') = slice.size (cell_ptr src) /\
    slice.size (cell_ptr dst) < slice.size (cell_ptr dst') /\
    (forall i : Z, 0 <= i < slice.size (cell_ptr src) ->
       m' (slice.data (cell_ptr dst) + i) = m (slice.data (cell_ptr src) + i)) /\
    (forall a : Z,
       ~ (slice.data (cell_ptr dst) <= a
          < slice.data (cell_ptr dst) + slice.size (cell_ptr src)) ->
       m' a = m a).
Proof.
  intros Hn Hlt. unfold REPLACE_CHAR.update. rewrite Hn.
  cbn [set_is_null set_cell cell_ptr is_null].
  eexists _, _. split; [reflexivity|].
  cbn [is_null cell_ptr slice.data slice.size].
  repeat split; try assumption.
  - intros i Hi. now apply memory_copy_inside.
  - intros a Ha. now apply memory_copy_outside.
Qed.

Lemma replace_char_null_arena_copies_all_witness :
  exists (dst' : SliceCell) (m' : Memory),
    REPLACE_CHAR.update (Arena := BumpArena) short_dst long_src None hello = (dst', None, m') /\
    slice.size (cell_ptr dst') = 5 /\
    m' 104 = Byte.x6f.
Proof.
  destruct (replace_char_null_arena_copies_all BumpArena BumpArenaOps
              short_dst long_src hello eq_refl eq_refl)
    as (dst' & m' & E & _ & _ & Hsize & _ & Hin & _).
  exists dst', m'. split; [exact E|]. split; [exact Hsize|].
  apply (Hin 4). simpl. lia.
Defined.

(** C1 as stated fails: with a null arena, a destination slice of 2
    bytes and a source of 5, the recorded size becomes 5, and the byte at
    offset 4 of the destination buffer, outside its 2 bytes, is written. *)
Lemma replace_char_null_arena_not_truncated :
  let '(dst', _, m') :=
    REPLACE_CHAR.update (Arena := BumpArena) short_dst long_src None hello in
  ~ slice.size (cell_ptr dst') <= slice.size (cell_ptr short_dst) /\
  ~ (forall a : Z,
       m' a <> hello a ->
       slice.data (cell_ptr short_dst) <= a
       < slice.data (cell_ptr short_dst) + slice.size (cell_ptr short_dst)).
Proof.
  cbv beta iota delta [REPLACE_CHAR.update short_dst long_src is_null set_is_null
                       set_cell cell_ptr slice.size slice.data].
  split.
  - lia.
  - intros Hall. specialize (Hall 104).
    assert (Hw : memory_copy hello 100 200 5 104 <> hello 104)
      by (vm_compute; discriminate).
    specialize (Hall Hw). lia.
Qed.

(** ** HLL_UNION finalize *)

Lemma byte_eqb_false (r : byte) : Byte.eqb r Byte.x00 = false <-> r <> Byte.x00.
Proof.
  split.
  - apply Byte.eqb_false.
  - intros Hne. destruct (Byte.eqb r Byte.x00) eqn:E; [|reflexivity].
    now apply Byte.byte_dec_bl in E.
Qed.

(** The loop records exactly the non-zero registers below [n]. *)
Lemma collect_lookup (regs : list byte) (n i : nat) (r : byte) :
  HLL_UNION.collect regs n !! i = Some r
  <-> (i < n)%nat /\ regs !! i = Some r /\ r <> Byte.x00.
Proof.
  unfold HLL_UNION.collect. induction n as [|n IH].
  - simpl. rewrite lookup_empty. split; [discriminate | intros [? _]; lia].
  - rewrite seq_S, foldl_app. cbn [foldl Nat.add].
    destruct (regs !! n) as [r'|] eqn:En.
    + destruct (Byte.eqb r' Byte.x00) eqn:Ez; cbn [negb].
      * rewrite IH. split.
        -- intros (? & ? & ?). repeat split; auto; lia.
        -- intros (Hi & Hr & Hnz). repeat split; auto.
           destruct (decide (i = n)) as [->|]; [|lia].
           rewrite En in Hr. injection Hr as ->.
           apply Byte.byte_dec_bl in Ez. contradiction.
      * destruct (decide (i = n)) as [->|Hne].
        -- rewrite lookup_insert_eq. rewrite En. apply byte_eqb_false in Ez.
           split.
           ++ intros [= ->]. repeat split; auto; lia.
           ++ intros (_ & Hr & _). exact Hr.
        -- rewrite lookup_insert_ne by congruence. rewrite IH.
           split; intros (? & ? & ?); repeat split; auto; lia.
    + rewrite IH. split.
      * intros (? & ? & ?). repeat split; auto; lia.
      * intros (Hi & Hr & Hnz). repeat split; auto.
        destruct (decide (i = n)) as [->|]; [|lia]. congruence.
Qed.



Section HllFinalize.
Context {H : HllSetHelper}.


End HllFinalize.

Example small_sketch_explicit :
  HLL_UNION.select (H := small_sketch) fresh_context {[ 1; 2 ]} = ExplicitSet.
Proof. vm_compute. reflexivity. Qed.

Example small_sketch_sparse :
  HLL_UNION.select (H := small_sketch) fresh_context {[ 1; 2; 3 ]} = SparseSet.
Proof. vm_compute. reflexivity. Qed.

Example small_sketch_full :
  HLL_UNION.select (H := small_sketch) fresh_context {[ 1; 2; 3; 4; 5 ]} = FullSet.
Proof. vm_compute. reflexivity. Qed.

Example small_sketch_none :
  HLL_UNION.select (H := small_sketch) fresh_context ∅ = NoSet.
Proof. vm_compute. reflexivity. Qed.



(** C10: finalize on an accumulator that never received a value (an
    empty hash set, no sparse / full form) calls no encoder: the memory,
    the bytes of the destination slice included, is left as it was, and
    the slice's size is set to 0.  This holds when the length of an empty
    sparse encoding, [sizeof(SparseLengthValueType)], is below
    [HLL_COLUMN_DEFAULT_LEN], so that the FULL branch is not taken. *)
Theorem hll_finalize_empty
    (H : HllSetHelper) (slice : Slice) (m : Memory) (context : HllContext) :
  hash64_set context = Some ∅ ->
  has_sparse_or_full context = false ->
  Z.of_nat sizeof_SparseLengthValueType < HLL_COLUMN_DEFAULT_LEN ->
  Z.of_nat sizeof_SparseLengthValueType < 2 ^ 31 ->
  HLL_UNION.select context ∅ = NoSet /\
  HLL_UNION.finalize slice m context
  = Some ({| slice.data := slice.data slice; slice.size := 0 |},
          m,
          {| has_value := has_value context;
             has_sparse_or_full := false;
             registers := registers context;
             hash64_set := None |}).
Proof.
  intros Hhs Hsf Hlen Hint.
  assert (Hc : HLL_UNION.converts context ∅ = false).
  { unfold HLL_UNION.converts. rewrite Hsf, size_empty. cbn [orb].
    apply Nat.ltb_ge. lia. }
  assert (Hi : HLL_UNION.index_to_value context ∅ = ∅)
    by (unfold HLL_UNION.index_to_value; now rewrite Hc).
  assert (Hl : HLL_UNION.sparse_set_len context ∅ = Z.of_nat sizeof_SparseLengthValueType).
  { unfold HLL_UNION.sparse_set_len. rewrite Hi, map_size_empty.
    unfold int_of_size_t. change (Z.of_nat 0) with 0. rewrite Z.mul_0_l, Z.add_0_l.
    rewrite Z.mod_small by (split; [lia|];
      apply Z.lt_trans with (2 ^ 31); [exact Hint | reflexivity]).
    apply wrap_small; [simpl; lia|].
    unfold in_range. cbn [is_signed INT].
    change (bits INT - 1) with 31. lia. }
  assert (Hs : HLL_UNION.select context ∅ = NoSet).
  { unfold HLL_UNION.select. rewrite Hl, Hi, map_size_empty, size_empty.
    destruct (Z.geb_spec (Z.of_nat sizeof_SparseLengthValueType) HLL_COLUMN_DEFAULT_LEN);
      [lia | reflexivity]. }
  split; [exact Hs|].
  unfold HLL_UNION.finalize. rewrite Hhs, Hs.
  unfold HLL_UNION.registers_after. rewrite Hc, Hsf. reflexivity.
Qed.

Lemma hll_finalize_empty_witness :
  HLL_UNION.finalize (H := small_sketch) {| slice.data := 64; slice.size := 9 |}
    hello fresh_context
  = Some ({| slice.data := 64; slice.size := 0 |},
          hello,
          {| has_value := true; has_sparse_or_full := false;
             registers := repeat Byte.x00 16; hash64_set := None |}).
Proof.
  refine (proj2 (hll_finalize_empty small_sketch {| slice.data := 64; slice.size := 9 |}
                   hello fresh_context eq_refl eq_refl _ _)).
  - simpl. lia.
  - simpl. lia.
Defined.

(** ** Merge *)

(** C9: when the traits supply no merge function the constructed
    [AggregateInfo] merges with its update function.  Every template of
    the header leaves [merge] at [nullptr], so for each of them merge
    and update are the same function and give the same destination state
    on all inputs. *)
Theorem merge_defaults_to_update :
  (forall (Init Update Finalize : Type) (traits : AggregateTraits Init Update Finalize),
      t_merge traits = None ->
      _merge_fn (make_AggregateInfo traits) = _update_fn (make_AggregateInfo traits)) /\
  (forall (Init Update Finalize : Type) (traits : AggregateTraits Init Update Finalize)
          (merge : Update),
      t_merge traits = Some merge ->
      _merge_fn (make_AggregateInfo traits) = merge) /\
  (forall (CppType : Type) (F : FieldTypeTraits CppType),
      t_merge none_traits = None /\
      t_merge (min_traits (F := F)) = None /\
      t_merge min_largeint_traits = None /\
      t_merge (max_traits (F := F)) = None /\
      t_merge max_largeint_traits = None /\
      t_merge (sum_traits (F := F)) = None /\
      t_merge sum_largeint_traits = None /\
      t_merge (replace_traits (F := F)) = None) /\
  (forall (Arena : Type) (A : ArenaOps Arena),
      t_merge (replace_char_traits (A := A)) = None) /\
  (forall H : HllSetHelper, t_merge (hll_union_traits (H := H)) = None) /\
  (forall (CppType : Type) (F : FieldTypeTraits CppType) (dst src : FixedCell),
      _merge_fn (make_AggregateInfo none_traits) dst src
      = BaseAggregateFuncs.update dst src /\
      _merge_fn (make_AggregateInfo (min_traits (F := F))) dst src
      = MIN.update (F := F) dst src /\
      _merge_fn (make_AggregateInfo min_largeint_traits) dst src
      = MIN_LARGEINT.update dst src /\
      _merge_fn (make_AggregateInfo (max_traits (F := F))) dst src
      = MAX.update (F := F) dst src /\
      _merge_fn (make_AggregateInfo max_largeint_traits) dst src
      = MAX_LARGEINT.update dst src /\
      _merge_fn (make_AggregateInfo (sum_traits (F := F))) dst src
      = SUM.update (F := F) dst src /\
      _merge_fn (make_AggregateInfo sum_largeint_traits) dst src
      = SUM_LARGEINT.update dst src /\
      _merge_fn (make_AggregateInfo (replace_traits (F := F))) dst src
      = REPLACE.update (F := F) dst src) /\
  (forall (Arena : Type) (A : ArenaOps Arena) (dst src : SliceCell)
          (arena : option Arena) (m : Memory),
      _merge_fn (make_AggregateInfo (replace_char_traits (A := A))) dst src arena m
      = REPLACE_CHAR.update dst src arena m) /\
  (forall (H : HllSetHelper) (dst src : SliceCell) (m : Memory) (context : HllContext),
      _merge_fn (make_AggregateInfo (hll_union_traits (H := H))) dst src m context
      = HLL_UNION.update dst src m context).
Proof.
  repeat apply conj.
  - intros Init Update Finalize traits Hm. unfold make_AggregateInfo; simpl.
    now rewrite Hm.
  - intros Init Update Finalize traits merge Hm. unfold make_AggregateInfo; simpl.
    now rewrite Hm.
  - intros CppType F. repeat split.
  - intros Arena A. reflexivity.
  - intros H. reflexivity.
  - intros CppType F dst src. repeat split.
  - intros Arena A dst src arena m. reflexivity.
  - intros H dst src m context. reflexivity.
Qed.

Lemma merge_defaults_to_update_witness :
  _merge_fn (make_AggregateInfo (sum_traits (F := IntTraits INT)))
  = _update_fn (make_AggregateInfo (sum_traits (F := IntTraits INT))).
Proof.
  exact (proj1 merge_defaults_to_update _ _ _ (sum_traits (F := IntTraits INT)) eq_refl).
Defined.

(** * Further properties of the aggregate functions *)

(** ** Folds of MIN and MAX *)

Lemma opt_min_assoc (a b c : option Z) :
  opt_min (opt_min a b) c = opt_min a (opt_min b c).
Proof. destruct a, b, c; simpl; try reflexivity. f_equal. lia. Qed.

Lemma opt_max_assoc (a b c : option Z) :
  opt_max (opt_max a b) c = opt_max a (opt_max b c).
Proof. destruct a, b, c; simpl; try reflexivity. f_equal. lia. Qed.

Lemma opt_min_comm (a b : option Z) : opt_min a b = opt_min b a.
Proof. destruct a, b; simpl; try reflexivity. f_equal. lia. Qed.

Lemma opt_max_comm (a b : option Z) : opt_max a b = opt_max b a.
Proof. destruct a, b; simpl; try reflexivity. f_equal. lia. Qed.

Lemma opt_min_none_r (a : option Z) : opt_min a None = a.
Proof. now destruct a. Qed.

Lemma opt_max_none_r (a : option Z) : opt_max a None = a.
Proof. now destruct a. Qed.

Lemma foldl_opt_min (a : option Z) (vs : list Z) :
  foldl opt_min a (map Some vs) = opt_min a (minimum vs).
Proof.
  unfold minimum. revert a. induction vs as [|v vs IH]; intros a; cbn [map foldl].
  - now rewrite opt_min_none_r.
  - rewrite IH, (IH (opt_min None (Some v))). cbn [opt_min].
    apply opt_min_assoc.
Qed.

Lemma foldl_opt_max (a : option Z) (vs : list Z) :
  foldl opt_max a (map Some vs) = opt_max a (maximum vs).
Proof.
  unfold maximum. revert a. induction vs as [|v vs IH]; intros a; cbn [map foldl].
  - now rewrite opt_max_none_r.
  - rewrite IH, (IH (opt_max None (Some v))). cbn [opt_max].
    apply opt_max_assoc.
Qed.

Lemma minimum_cons (v : Z) (vs : list Z) :
  minimum (v :: vs) = opt_min (Some v) (minimum vs).
Proof. unfold minimum at 1. cbn [map foldl opt_min]. apply foldl_opt_min. Qed.

Lemma maximum_cons (v : Z) (vs : list Z) :
  maximum (v :: vs) = opt_max (Some v) (maximum vs).
Proof. unfold maximum at 1. cbn [map foldl opt_max]. apply foldl_opt_max. Qed.

Lemma minimum_app (l1 l2 : list Z) :
  minimum (l1 ++ l2) = opt_min (minimum l1) (minimum l2).
Proof.
  induction l1 as [|v l1 IH]; [reflexivity|].
  cbn [app]. now rewrite !minimum_cons, IH, opt_min_assoc.
Qed.

Lemma maximum_app (l1 l2 : list Z) :
  maximum (l1 ++ l2) = opt_max (maximum l1) (maximum l2).
Proof.
  induction l1 as [|v l1 IH]; [reflexivity|].
  cbn [app]. now rewrite !maximum_cons, IH, opt_max_assoc.
Qed.

Lemma minimum_perm (l1 l2 : list Z) : Permutation l1 l2 -> minimum l1 = minimum l2.
Proof.
  induction 1 as [|x l l' _ IH|x y l|l l' l'' _ IH1 _ IH2].
  - reflexivity.
  - now rewrite !minimum_cons, IH.
  - rewrite !minimum_cons, <- !opt_min_assoc. f_equal. apply opt_min_comm.
  - congruence.
Qed.

Lemma maximum_perm (l1 l2 : list Z) : Permutation l1 l2 -> maximum l1 = maximum l2.
Proof.
  induction 1 as [|x l l' _ IH|x y l|l l' l'' _ IH1 _ IH2].
  - reflexivity.
  - now rewrite !maximum_cons, IH.
  - rewrite !maximum_cons, <- !opt_max_assoc. f_equal. apply opt_max_comm.
  - congruence.
Qed.

(** [minimum] is the least element, [maximum] the greatest. *)
Lemma minimum_least (vs : list Z) :
  match minimum vs with
  | None => vs = []
  | Some m => In m vs /\ Forall (Z.le m) vs
  end.
Proof.
  induction vs as [|v vs IH]; [reflexivity|].
  rewrite minimum_cons. destruct (minimum vs) as [m|]; cbn [opt_min].
  - destruct IH as [Hin Hall]. split.
    + destruct (Z.min_spec v m) as [[_ ->]|[_ ->]]; [now left | now right].
    + constructor; [lia|]. eapply Forall_impl; [exact Hall|].
      intros x Hx. simpl in Hx. lia.
  - subst vs. split; [now left|]. constructor; [lia | constructor].
Qed.

Lemma maximum_greatest (vs : list Z) :
  match maximum vs with
  | None => vs = []
  | Some m => In m vs /\ Forall (Z.ge m) vs
  end.
Proof.
  induction vs as [|v vs IH]; [reflexivity|].
  rewrite maximum_cons. destruct (maximum vs) as [m|]; cbn [opt_max].
  - destruct IH as [Hin Hall]. split.
    + destruct (Z.max_spec v m) as [[_ ->]|[_ ->]]; [now right | now left].
    + constructor; [lia|]. eapply Forall_impl; [exact Hall|].
      intros x Hx. simpl in Hx. lia.
  - subst vs. split; [now left|]. constructor; [lia | constructor].
Qed.

Lemma fixed_value (t : IntType) (c : FixedCell) : fixed t (value t c).
Proof. unfold value. destruct (is_null c); simpl; [exact I | apply wrap_wrap]. Qed.

Lemma fixed_opt_min (t : IntType) (a b : option Z) :
  fixed t a -> fixed t b -> fixed t (opt_min a b).
Proof.
  destruct a as [x|], b as [y|]; simpl; auto.
  intros Hx Hy. destruct (Z.min_spec x y) as [[_ ->]|[_ ->]]; assumption.
Qed.

Lemma fixed_opt_max (t : IntType) (a b : option Z) :
  fixed t a -> fixed t b -> fixed t (opt_max a b).
Proof.
  destruct a as [x|], b as [y|]; simpl; auto.
  intros Hx Hy. destruct (Z.max_spec x y) as [[_ ->]|[_ ->]]; assumption.
Qed.

Lemma value_cell_of (t : IntType) (dst : FixedCell) (acc : option Z) :
  fixed t acc -> value t (cell_of t dst acc) = acc.
Proof.
  destruct acc as [v|]; simpl; [|reflexivity].
  intros Hv. now rewrite value_stored, Hv.
Qed.

Lemma holds_cell_of (t : IntType) (dst : FixedCell) (acc : option Z) :
  is_null (cell_of t dst acc) = false -> holds (width t) (cell_of t dst acc).
Proof.
  destruct acc as [v|]; simpl; [|discriminate]. intros _. apply holds_stored.
Qed.

Lemma stored_stored (t : IntType) (dst : FixedCell) (a b : Z) :
  stored t (stored t dst a) b = stored t dst b.
Proof.
  unfold stored. cbn [cell_ptr]. f_equal.
  apply memcpy_memcpy. unfold int_store. rewrite length_le_split. lia.
Qed.

(** One MIN step on an accumulator cell. *)
Lemma min_update_cell_of (t : IntType) (dst s : FixedCell) (acc : option Z) :
  fixed t acc -> (is_null s = false -> holds (width t) s) ->
  MIN.update (F := IntTraits t) (cell_of t dst acc) s
  = cell_of t dst (opt_min acc (value t s)).
Proof.
  intros Hacc Hs. unfold value. destruct (is_null s) eqn:Hn.
  - unfold MIN.update. rewrite Hn. now rewrite opt_min_none_r.
  - unfold MIN.update. rewrite Hn. cbn [load cpp_lt IntTraits].
    destruct acc as [m|]; cbn [cell_of opt_min].
    + change (is_null (stored t dst m)) with false. cbn [orb].
      rewrite stored_bytes at 1. rewrite int_load_store.
      simpl in Hacc. rewrite Hacc.
      destruct (Z.ltb_spec (int_load t (cell_ptr s)) m) as [Hlt|Hge].
      * rewrite Z.min_r by lia.
        change (assign (set_is_null (stored t dst m) false) (int_load t (cell_ptr s)))
          with (stored t (stored t dst m) (int_load t (cell_ptr s))).
        apply stored_stored.
      * now rewrite Z.min_l by lia.
    + reflexivity.
Qed.

Lemma max_update_cell_of (t : IntType) (dst s : FixedCell) (acc : option Z) :
  fixed t acc -> (is_null s = false -> holds (width t) s) ->
  MAX.update (F := IntTraits t) (cell_of t dst acc) s
  = cell_of t dst (opt_max acc (value t s)).
Proof.
  intros Hacc Hs. unfold value. destruct (is_null s) eqn:Hn.
  - unfold MAX.update. rewrite Hn. now rewrite opt_max_none_r.
  - unfold MAX.update, cpp_gt. rewrite Hn. cbn [load cpp_lt IntTraits].
    destruct acc as [m|]; cbn [cell_of opt_max].
    + change (is_null (stored t dst m)) with false. cbn [orb].
      rewrite stored_bytes at 1. rewrite int_load_store.
      simpl in Hacc. rewrite Hacc.
      destruct (Z.ltb_spec m (int_load t (cell_ptr s))) as [Hlt|Hge].
      * rewrite Z.max_r by lia.
        change (assign (set_is_null (stored t dst m) false) (int_load t (cell_ptr s)))
          with (stored t (stored t dst m) (int_load t (cell_ptr s))).
        apply stored_stored.
      * now rewrite Z.max_l by lia.
    + reflexivity.
Qed.

Lemma values_fixed (t : IntType) (srcs : list FixedCell) :
  Forall (fun v => wrap t v = v) (values t srcs).
Proof.
  induction srcs as [|s srcs IH]; [constructor|].
  destruct (is_null s) eqn:Hn.
  - now rewrite values_cons_null.
  - rewrite values_cons by exact Hn. constructor; [|exact IH].
    unfold int_load. apply wrap_wrap.
Qed.

Lemma fixed_minimum (t : IntType) (vs : list Z) :
  Forall (fun v => wrap t v = v) vs -> fixed t (minimum vs).
Proof.
  induction 1 as [|v vs Hv _ IH]; [exact I|].
  rewrite minimum_cons. now apply fixed_opt_min.
Qed.

Lemma fixed_maximum (t : IntType) (vs : list Z) :
  Forall (fun v => wrap t v = v) vs -> fixed t (maximum vs).
Proof.
  induction 1 as [|v vs Hv _ IH]; [exact I|].
  rewrite maximum_cons. now apply fixed_opt_max.
Qed.

Lemma values_cons_value (t : IntType) (s : FixedCell) (srcs : list FixedCell) :
  minimum (values t (s :: srcs)) = opt_min (value t s) (minimum (values t srcs)) /\
  maximum (values t (s :: srcs)) = opt_max (value t s) (maximum (values t srcs)).
Proof.
  unfold value. destruct (is_null s) eqn:Hn.
  - now rewrite values_cons_null.
  - rewrite values_cons by exact Hn. now rewrite minimum_cons, maximum_cons.
Qed.

Lemma min_fold_cell_of (t : IntType) (dst : FixedCell) (srcs : list FixedCell)
    (acc : option Z) :
  fixed t acc -> Forall (holds (width t)) srcs ->
  foldl (MIN.update (F := IntTraits t)) (cell_of t dst acc) srcs
  = cell_of t dst (opt_min acc (minimum (values t srcs))).
Proof.
  intros Hacc Hall. revert acc Hacc.
  induction Hall as [|s srcs Hs _ IH]; intros acc Hacc; cbn [foldl].
  - now rewrite opt_min_none_r.
  - rewrite min_update_cell_of by auto.
    rewrite IH by (apply fixed_opt_min; [exact Hacc | apply fixed_value]).
    destruct (values_cons_value t s srcs) as [-> _].
    now rewrite opt_min_assoc.
Qed.

Lemma max_fold_cell_of (t : IntType) (dst : FixedCell) (srcs : list FixedCell)
    (acc : option Z) :
  fixed t acc -> Forall (holds (width t)) srcs ->
  foldl (MAX.update (F := IntTraits t)) (cell_of t dst acc) srcs
  = cell_of t dst (opt_max acc (maximum (values t srcs))).
Proof.
  intros Hacc Hall. revert acc Hacc.
  induction Hall as [|s srcs Hs _ IH]; intros acc Hacc; cbn [foldl].
  - now rewrite opt_max_none_r.
  - rewrite max_update_cell_of by auto.
    rewrite IH by (apply fixed_opt_max; [exact Hacc | apply fixed_value]).
    destruct (values_cons_value t s srcs) as [_ ->].
    now rewrite opt_max_assoc.
Qed.

Lemma min_fold_minimum (t : IntType) (dst : FixedCell) (srcs : list FixedCell) :
  Forall (holds (width t)) srcs ->
  min_fold t dst srcs = cell_of t dst (minimum (values t srcs)).
Proof. intros Hall. exact (min_fold_cell_of t dst srcs None I Hall). Qed.

Lemma max_fold_maximum (t : IntType) (dst : FixedCell) (srcs : list FixedCell) :
  Forall (holds (width t)) srcs ->
  max_fold t dst srcs = cell_of t dst (maximum (values t srcs)).
Proof. intros Hall. exact (max_fold_cell_of t dst srcs None I Hall). Qed.

(** X1: on an integer column, [init] followed by MIN (MAX) updates leaves
    the destination null exactly when no source had a value, and
    otherwise holding the least (greatest) of the non-null source values,
    which is one of them.  The whole destination cell is the same for
    every order of the sources. *)
Theorem min_max_fold_extremum (t : IntType) (dst : FixedCell) (srcs : list FixedCell) :
  Forall (holds (width t)) srcs ->
  match value t (min_fold t dst srcs) with
  | None => values t srcs = []
  | Some m => In m (values t srcs) /\ Forall (Z.le m) (values t srcs)
  end /\
  match value t (max_fold t dst srcs) with
  | None => values t srcs = []
  | Some m => In m (values t srcs) /\ Forall (Z.ge m) (values t srcs)
  end /\
  (forall srcs' : list FixedCell,
     Permutation srcs srcs' ->
     min_fold t dst srcs' = min_fold t dst srcs /\
     max_fold t dst srcs' = max_fold t dst srcs).
Proof.
  intros Hall.
  pose proof (values_fixed t srcs) as Hfix.
  rewrite min_fold_minimum, max_fold_maximum by exact Hall.
  rewrite !value_cell_of by auto using fixed_minimum, fixed_maximum.
  split; [apply minimum_least|]. split; [apply maximum_greatest|].
  intros srcs' Hp.
  assert (Hall' : Forall (holds (width t)) srcs') by (rewrite <- Hp; exact Hall).
  rewrite min_fold_minimum, max_fold_maximum by exact Hall'.
  pose proof (values_perm t _ _ Hp) as Hv.
  now rewrite (minimum_perm _ _ Hv), (maximum_perm _ _ Hv).
Qed.

Lemma min_max_fold_extremum_witness :
  match value INT (min_fold INT (null_cell INT)
                     [int_cell INT 5; null_cell INT; int_cell INT (-2); int_cell INT 9]) with
  | None =>
      values INT [int_cell INT 5; null_cell INT; int_cell INT (-2); int_cell INT 9] = []
  | Some m =>
      In m (values INT [int_cell INT 5; null_cell INT; int_cell INT (-2); int_cell INT 9]) /\
      Forall (Z.le m)
        (values INT [int_cell INT 5; null_cell INT; int_cell INT (-2); int_cell INT 9])
  end.
Proof.
  refine (proj1 (min_max_fold_extremum INT (null_cell INT)
                   [int_cell INT 5; null_cell INT; int_cell INT (-2); int_cell INT 9] _)).
  repeat constructor; unfold holds; simpl; lia.
Defined.

Example min_max_fold_values :
  value INT (min_fold INT (null_cell INT)
               [int_cell INT 5; null_cell INT; int_cell INT (-2); int_cell INT 9])
  = Some (-2) /\
  value INT (max_fold INT (null_cell INT)
               [int_cell INT 5; null_cell INT; int_cell INT (-2); int_cell INT 9])
  = Some 9.
Proof. split; vm_compute; reflexivity. Qed.

(** X2: partial aggregates can be merged by update.  On an integer
    column, folding two runs of sources separately from [init] and then
    updating the first result with the second gives the same destination
    cell as folding all the sources in one run, for MIN and for MAX. *)
Theorem min_max_fold_merge (t : IntType) (dst : FixedCell) (l1 l2 : list FixedCell) :
  Forall (holds (width t)) l1 -> Forall (holds (width t)) l2 ->
  MIN.update (F := IntTraits t) (min_fold t dst l1) (min_fold t dst l2)
  = min_fold t dst (l1 ++ l2) /\
  MAX.update (F := IntTraits t) (max_fold t dst l1) (max_fold t dst l2)
  = max_fold t dst (l1 ++ l2).
Proof.
  intros H1 H2.
  assert (H12 : Forall (holds (width t)) (l1 ++ l2)) by (apply Forall_app; auto).
  rewrite !min_fold_minimum, !max_fold_maximum by assumption.
  pose proof (values_fixed t l1) as F1. pose proof (values_fixed t l2) as F2.
  rewrite min_update_cell_of, max_update_cell_of
    by (auto using fixed_minimum, fixed_maximum, holds_cell_of).
  rewrite !value_cell_of by auto using fixed_minimum, fixed_maximum.
  now rewrite values_app, minimum_app, maximum_app.
Qed.

Lemma min_max_fold_merge_witness :
  MIN.update (F := IntTraits INT)
    (min_fold INT (null_cell INT) [int_cell INT 5; null_cell INT])
    (min_fold INT (null_cell INT) [int_cell INT 2; int_cell INT 9])
  = min_fold INT (null_cell INT)
      ([int_cell INT 5; null_cell INT] ++ [int_cell INT 2; int_cell INT 9]).
Proof.
  refine (proj1 (min_max_fold_merge INT (null_cell INT)
                   [int_cell INT 5; null_cell INT] [int_cell INT 2; int_cell INT 9] _ _));
    repeat constructor; unfold holds; simpl; lia.
Defined.

(** X3: over the same source rows of an integer column the MIN and the
    MAX aggregate are null together, and when they are not the MIN
    result is at most the MAX result. *)
Theorem min_fold_le_max_fold (t : IntType) (dst : FixedCell) (srcs : list FixedCell) :
  Forall (holds (width t)) srcs ->
  is_null (min_fold t dst srcs) = is_null (max_fold t dst srcs) /\
  (forall lo hi : Z,
     value t (min_fold t dst srcs) = Some lo ->
     value t (max_fold t dst srcs) = Some hi ->
     lo <= hi).
Proof.
  intros Hall.
  pose proof (values_fixed t srcs) as Hfix.
  rewrite min_fold_minimum, max_fold_maximum by exact Hall.
  pose proof (minimum_least (values t srcs)) as Hmin.
  pose proof (maximum_greatest (values t srcs)) as Hmax.
  split.
  - destruct (minimum (values t srcs)) as [m|], (maximum (values t srcs)) as [M|];
      try reflexivity.
    + destruct Hmin as [Hin _]. rewrite Hmax in Hin. destruct Hin.
    + destruct Hmax as [Hin _]. rewrite Hmin in Hin. destruct Hin.
  - intros lo hi. rewrite !value_cell_of by auto using fixed_minimum, fixed_maximum.
    intros Elo Ehi. rewrite Elo in Hmin. rewrite Ehi in Hmax.
    destruct Hmin as [Hin _], Hmax as [_ Hge].
    rewrite Forall_forall in Hge. specialize (Hge lo).
    apply list_elem_of_In in Hin. specialize (Hge Hin). lia.
Qed.

Lemma min_fold_le_max_fold_witness :
  is_null (min_fold INT (null_cell INT) [int_cell INT 5; int_cell INT 2])
  = is_null (max_fold INT (null_cell INT) [int_cell INT 5; int_cell INT 2]).
Proof.
  refine (proj1 (min_fold_le_max_fold INT (null_cell INT)
                   [int_cell INT 5; int_cell INT 2] _)).
  repeat constructor; unfold holds; simpl; lia.
Defined.

(** ** Single updates *)

Lemma memcpy_same_length (dst src : list byte) (n : nat) :
  (n <= length src)%nat -> (n <= length dst)%nat ->
  length (memcpy dst src n) = length dst.
Proof.
  intros Hs Hd. unfold memcpy.
  rewrite length_app, length_take, length_drop. lia.
Qed.

Lemma int_load_fixed (t : IntType) (bs : list byte) :
  wrap t (int_load t bs) = int_load t bs.
Proof. unfold int_load. apply wrap_wrap. Qed.

(** X4: MIN, MAX and REPLACE updates are idempotent: folding the same
    source a second time changes nothing in the destination cell, for
    every destination of an integer column and every source that holds
    a whole value. *)
Theorem update_idempotent (t : IntType) (dst src : FixedCell) :
  holds (width t) src ->
  MIN.update (F := IntTraits t) (MIN.update (F := IntTraits t) dst src) src
  = MIN.update (F := IntTraits t) dst src /\
  MAX.update (F := IntTraits t) (MAX.update (F := IntTraits t) dst src) src
  = MAX.update (F := IntTraits t) dst src /\
  REPLACE.update (F := IntTraits t) (REPLACE.update (F := IntTraits t) dst src) src
  = REPLACE.update (F := IntTraits t) dst src.
Proof.
  intros Hs.
  assert (Hadopt : forall d : FixedCell,
             int_load t (cell_ptr (assign (F := IntTraits t) (set_is_null d false)
                                     (int_load t (cell_ptr src))))
             = int_load t (cell_ptr src)).
  { intros d.
    change (assign (F := IntTraits t) (set_is_null d false) (int_load t (cell_ptr src)))
      with (stored t d (int_load t (cell_ptr src))).
    rewrite stored_bytes, int_load_store. apply int_load_fixed. }
  split; [|split].
  - unfold MIN.update. destruct (is_null src) eqn:Hn; [reflexivity|].
    cbn [load cpp_lt IntTraits].
    destruct (is_null dst || (int_load t (cell_ptr src) <? int_load t (cell_ptr dst))) eqn:Ec.
    + rewrite Hadopt. cbn [assign set_cell set_is_null is_null orb].
      now rewrite Z.ltb_irrefl.
    + now rewrite Ec.
  - unfold MAX.update, cpp_gt. destruct (is_null src) eqn:Hn; [reflexivity|].
    cbn [load cpp_lt IntTraits].
    destruct (is_null dst || (int_load t (cell_ptr dst) <? int_load t (cell_ptr src))) eqn:Ec.
    + rewrite Hadopt. cbn [assign set_cell set_is_null is_null orb].
      now rewrite Z.ltb_irrefl.
    + now rewrite Ec.
  - unfold REPLACE.update. destruct (is_null src); cbn [negb]; [reflexivity|].
    cbn [set_cell set_is_null is_null cell_ptr sizeof IntTraits]. f_equal.
    now apply memcpy_memcpy.
Qed.

Lemma update_idempotent_witness :
  MIN.update (F := IntTraits INT)
    (MIN.update (F := IntTraits INT) (int_cell INT 7) (int_cell INT 3)) (int_cell INT 3)
  = MIN.update (F := IntTraits INT) (int_cell INT 7) (int_cell INT 3).
Proof.
  refine (proj1 (update_idempotent INT (int_cell INT 7) (int_cell INT 3) _)).
  unfold holds; simpl; lia.
Defined.

Lemma fold_null_flag (f : FixedCell -> FixedCell -> FixedCell) :
  (forall d s : FixedCell, is_null (f d s) = is_null d && is_null s) ->
  forall (srcs : list FixedCell) (dst : FixedCell),
    is_null (foldl f dst srcs) = is_null dst && forallb is_null srcs.
Proof.
  intros Hstep srcs. induction srcs as [|s srcs IH]; intros dst; cbn [foldl forallb].
  - now rewrite andb_true_r.
  - now rewrite IH, Hstep, andb_assoc.
Qed.

(** X5: under MIN, MAX and SUM, at every field type and in the LARGEINT
    specialisations, the destination is null after a sequence of updates
    exactly when it was null before and every source was null: a
    destination that has a value never loses it. *)
Theorem accumulator_null_flag
    (CppType : Type) (F : FieldTypeTraits CppType)
    (dst : FixedCell) (srcs : list FixedCell) :
  is_null (foldl (MIN.update (CppType := CppType)) dst srcs)
  = is_null dst && forallb is_null srcs /\
  is_null (foldl (MAX.update (CppType := CppType)) dst srcs)
  = is_null dst && forallb is_null srcs /\
  is_null (foldl (SUM.update (CppType := CppType)) dst srcs)
  = is_null dst && forallb is_null srcs /\
  is_null (foldl MIN_LARGEINT.update dst srcs) = is_null dst && forallb is_null srcs /\
  is_null (foldl MAX_LARGEINT.update dst srcs) = is_null dst && forallb is_null srcs /\
  is_null (foldl SUM_LARGEINT.update dst srcs) = is_null dst && forallb is_null srcs.
Proof.
  repeat split; apply fold_null_flag; intros d s.
  - unfold MIN.update. destruct (is_null s); [now rewrite andb_true_r|].
    destruct (is_null d) eqn:Hd; cbn [orb]; [reflexivity|].
    destruct (cpp_lt _ _); [reflexivity | now rewrite Hd].
  - unfold MAX.update. destruct (is_null s); [now rewrite andb_true_r|].
    destruct (is_null d) eqn:Hd; cbn [orb]; [reflexivity|].
    destruct (cpp_gt _ _); [reflexivity | now rewrite Hd].
  - unfold SUM.update. destruct (is_null s); [now rewrite andb_true_r|].
    destruct (is_null d) eqn:Hd; cbn [assign set_cell set_is_null is_null];
      [reflexivity | now rewrite Hd].
  - unfold MIN_LARGEINT.update. destruct (is_null s); [now rewrite andb_true_r|].
    destruct (is_null d) eqn:Hd; [reflexivity|].
    destruct (_ <? _); [reflexivity | now rewrite Hd].
  - unfold MAX_LARGEINT.update. destruct (is_null s); [now rewrite andb_true_r|].
    destruct (is_null d) eqn:Hd; cbn [orb]; [reflexivity|].
    destruct (_ >? _); [reflexivity | now rewrite Hd].
  - unfold SUM_LARGEINT.update. destruct (is_null s); [now rewrite andb_true_r|].
    destruct (is_null d) eqn:Hd; cbn [set_cell set_is_null is_null];
      [reflexivity | now rewrite Hd].
Qed.

Lemma writes_within_refl (n : nat) (dst : FixedCell) (b : bool) :
  writes_within n dst (set_is_null dst b).
Proof. now split. Qed.

Lemma writes_within_same (n : nat) (dst : FixedCell) : writes_within n dst dst.
Proof. now split. Qed.

Lemma writes_within_memcpy (n : nat) (dst : FixedCell) (bs : list byte) (b : bool) :
  (n <= length bs)%nat ->
  writes_within n dst {| is_null := b; cell_ptr := memcpy (cell_ptr dst) bs n |}.
Proof.
  intros Hb. split; cbn [cell_ptr].
  - now apply memcpy_drop.
  - intros Hd. now apply memcpy_same_length.
Qed.

Section Frame.
Context {CppType : Type} {F : FieldTypeTraits CppType} {L : FieldTypeLaws CppType}.

Lemma writes_within_assign (dst : FixedCell) (v : CppType) :
  writes_within sizeof dst (assign dst v).
Proof.
  destruct dst as [b bs]. unfold assign, set_cell. cbn [is_null cell_ptr].
  apply (writes_within_memcpy sizeof {| is_null := b; cell_ptr := bs |}).
  now rewrite store_length.
Qed.

Lemma writes_within_adopt (dst : FixedCell) (v : CppType) :
  writes_within sizeof dst (assign (set_is_null dst false) v).
Proof.
  destruct dst as [b bs]. unfold assign, set_cell, set_is_null. cbn [is_null cell_ptr].
  apply (writes_within_memcpy sizeof {| is_null := b; cell_ptr := bs |}).
  now rewrite store_length.
Qed.
End Frame.

(** X6: an update of a fixed-width column writes only the null flag and
    the first [sizeof(CppType)] value bytes of the destination: whatever
    follows them is left as it was and the cell keeps its length, for
    MIN, MAX, SUM and REPLACE at every field type and for the LARGEINT
    specialisations at 16 bytes, provided the source holds a whole
    value. *)
Theorem update_writes_within_cell
    (CppType : Type) (F : FieldTypeTraits CppType) (L : FieldTypeLaws CppType)
    (dst src : FixedCell) :
  holds sizeof src ->
  writes_within sizeof dst (MIN.update (CppType := CppType) dst src) /\
  writes_within sizeof dst (MAX.update (CppType := CppType) dst src) /\
  writes_within sizeof dst (SUM.update (CppType := CppType) dst src) /\
  writes_within sizeof dst (REPLACE.update (CppType := CppType) dst src) /\
  (holds 16 src ->
   writes_within 16 dst (MIN_LARGEINT.update dst src) /\
   writes_within 16 dst (MAX_LARGEINT.update dst src) /\
   writes_within 16 dst (SUM_LARGEINT.update dst src)).
Proof.
  intros Hs.
  assert (Hcopy : forall (n : nat) (b : bool), (n <= length (cell_ptr src))%nat ->
            writes_within n dst
              (set_cell (set_is_null dst b) (memcpy (cell_ptr dst) (cell_ptr src) n))).
  { intros n b Hn. now apply writes_within_memcpy. }
  assert (Hsame := writes_within_same).
  split; [|split; [|split; [|split; [|intros H16; split; [|split]]]]].
  - unfold MIN.update. destruct (is_null src); [apply Hsame|].
    destruct (_ || _); [apply writes_within_adopt | apply Hsame].
  - unfold MAX.update. destruct (is_null src); [apply Hsame|].
    destruct (_ || _); [apply writes_within_adopt | apply Hsame].
  - unfold SUM.update. destruct (is_null src); [apply Hsame|].
    destruct (is_null dst); [apply writes_within_adopt | apply writes_within_assign].
  - unfold REPLACE.update. destruct (is_null src); cbn [negb].
    + apply writes_within_refl.
    + now apply Hcopy.
  - unfold MIN_LARGEINT.update. destruct (is_null src); [apply Hsame|].
    destruct (is_null dst); [now apply Hcopy|].
    destruct (_ <? _); [now apply Hcopy | apply Hsame].
  - unfold MAX_LARGEINT.update. destruct (is_null src); [apply Hsame|].
    destruct (_ || _); [now apply Hcopy | apply Hsame].
  - unfold SUM_LARGEINT.update. destruct (is_null src); [apply Hsame|].
    destruct (is_null dst); [now apply Hcopy|].
    apply (writes_within_memcpy 16 dst _ (is_null dst)).
    unfold int_store. now rewrite length_le_split.
Qed.

Lemma update_writes_within_cell_witness :
  writes_within 4 (int_cell BIGINT 7)
    (REPLACE.update (F := IntTraits INT) (int_cell BIGINT 7) (int_cell INT 3)).
Proof.
  refine (proj1 (proj2 (proj2 (proj2
    (update_writes_within_cell Z (IntTraits INT) (IntLaws INT)
       (int_cell BIGINT 7) (int_cell INT 3) _))))).
  unfold holds; simpl; lia.
Defined.

(** X7: [init] makes the destination the identity of every method.  The
    first non-null source folded into an initialised destination is
    adopted, whatever the method: after MIN, MAX, SUM or REPLACE at any
    field type the destination is non-null, its first [sizeof(CppType)]
    bytes are the source's, a load from it returns what a load from the
    source returns, and its later bytes are its own; the three LARGEINT
    specialisations do the same with 16 bytes. *)
Theorem first_value_is_adopted
    (CppType : Type) (F : FieldTypeTraits CppType) (L : FieldTypeLaws CppType)
    (dst src : FixedCell) :
  is_null src = false -> holds sizeof src ->
  let adopted (n : nat) (r : FixedCell) : Prop :=
    is_null r = false /\
    take n (cell_ptr r) = take n (cell_ptr src) /\
    drop n (cell_ptr r) = drop n (cell_ptr dst) in
  let start := BaseAggregateFuncs.init dst in
  (adopted sizeof (MIN.update (CppType := CppType) start src) /\
   load (cell_ptr (MIN.update (CppType := CppType) start src)) = load (cell_ptr src)) /\
  (adopted sizeof (MAX.update (CppType := CppType) start src) /\
   load (cell_ptr (MAX.update (CppType := CppType) start src)) = load (cell_ptr src)) /\
  (adopted sizeof (SUM.update (CppType := CppType) start src) /\
   load (cell_ptr (SUM.update (CppType := CppType) start src)) = load (cell_ptr src)) /\
  (adopted sizeof (REPLACE.update (CppType := CppType) start src) /\
   load (cell_ptr (REPLACE.update (CppType := CppType) start src)) = load (cell_ptr src)) /\
  (holds 16 src ->
   (adopted 16%nat (MIN_LARGEINT.update start src) /\
    int_load LARGEINT (cell_ptr (MIN_LARGEINT.update start src))
    = int_load LARGEINT (cell_ptr src)) /\
   (adopted 16%nat (MAX_LARGEINT.update start src) /\
    int_load LARGEINT (cell_ptr (MAX_LARGEINT.update start src))
    = int_load LARGEINT (cell_ptr src)) /\
   (adopted 16%nat (SUM_LARGEINT.update start src) /\
    int_load LARGEINT (cell_ptr (SUM_LARGEINT.update start src))
    = int_load LARGEINT (cell_ptr src))).
Proof.
  intros Hn Hs adopted start. subst adopted start.
  pose proof (assign_load (set_is_null (BaseAggregateFuncs.init dst) false) src Hs) as Ha.
  unfold MIN.update, MAX.update, SUM.update, REPLACE.update,
    MIN_LARGEINT.update, MAX_LARGEINT.update, SUM_LARGEINT.update.
  rewrite Hn. cbn [BaseAggregateFuncs.init set_is_null is_null orb negb cell_ptr set_cell].
  cbn [BaseAggregateFuncs.init set_is_null is_null cell_ptr set_cell] in Ha.
  rewrite Ha. cbn [is_null cell_ptr].
  assert (Hgen :
    (false = false /\
     take sizeof (memcpy (cell_ptr dst) (cell_ptr src) sizeof) = take sizeof (cell_ptr src) /\
     drop sizeof (memcpy (cell_ptr dst) (cell_ptr src) sizeof) = drop sizeof (cell_ptr dst)) /\
    load (memcpy (cell_ptr dst) (cell_ptr src) sizeof) = load (cell_ptr src)).
  { split; [split; [reflexivity|split]|].
    - now apply memcpy_take.
    - now apply memcpy_drop.
    - now apply load_memcpy. }
  split; [exact Hgen|]. split; [exact Hgen|]. split; [exact Hgen|]. split; [exact Hgen|].
  intros H16.
  assert (Hbig :
    (false = false /\
     take 16 (memcpy (cell_ptr dst) (cell_ptr src) 16) = take 16 (cell_ptr src) /\
     drop 16 (memcpy (cell_ptr dst) (cell_ptr src) 16) = drop 16 (cell_ptr dst)) /\
    int_load LARGEINT (memcpy (cell_ptr dst) (cell_ptr src) 16)
    = int_load LARGEINT (cell_ptr src)).
  { split; [split; [reflexivity|split]|].
    - now apply memcpy_take.
    - now apply memcpy_drop.
    - exact (load_memcpy (F := IntTraits LARGEINT) (cell_ptr dst) src H16). }
  split; [exact Hbig|]. split; exact Hbig.
Qed.

Lemma first_value_is_adopted_witness :
  int_load INT
    (cell_ptr (SUM.update (F := IntTraits INT)
                 (BaseAggregateFuncs.init (int_cell INT 7)) (int_cell INT 3)))
  = int_load INT (cell_ptr (int_cell INT 3)).
Proof.
  refine (proj2 (proj1 (proj2 (proj2
    (first_value_is_adopted Z (IntTraits INT) (IntLaws INT)
       (int_cell INT 7) (int_cell INT 3) eq_refl _))))).
  unfold holds; simpl; lia.
Defined.

(** The first value on an INT column that was initialised over a 7. *)
Example first_value_bytes :
  SUM.update (F := IntTraits INT) (BaseAggregateFuncs.init (int_cell INT 7)) (int_cell INT 3)
  = {| is_null := false; cell_ptr := [Byte.x03; Byte.x00; Byte.x00; Byte.x00] |} /\
  MIN_LARGEINT.update (BaseAggregateFuncs.init (int_cell LARGEINT 7)) (int_cell LARGEINT (-1))
  = {| is_null := false; cell_ptr := repeat Byte.xff 16 |}.
Proof. split; vm_compute; reflexivity. Qed.

(** ** REPLACE on CHAR and VARCHAR, with and without an arena *)

(** X8: after a REPLACE update of a CHAR / VARCHAR cell with a non-null
    source the destination is non-null, its slice has the source's size,
    and the bytes it points to are the bytes the source pointed to before
    the call.  This holds on every path: null arena, reused buffer, fresh
    buffer. *)
Theorem replace_char_copies_source
    (Arena : Type) (A : ArenaOps Arena) (dst src : SliceCell)
    (arena : option Arena) (m : Memory) :
  is_null src = false ->
  let r := REPLACE_CHAR.update dst src arena m in
  let dst' := fst (fst r) in
  let m' := snd r in
  is_null dst' = false /\
  slice.size (cell_ptr dst') = slice.size (cell_ptr src) /\
  (forall i : Z, 0 <= i < slice.size (cell_ptr src) ->
     m' (slice.data (cell_ptr dst') + i) = m (slice.data (cell_ptr src) + i)).
Proof.
  intros Hn r dst' m'. subst dst' m' r. unfold REPLACE_CHAR.update. rewrite Hn.
  cbn [set_is_null set_cell cell_ptr is_null].
  destruct arena as [a|].
  - destruct (negb (is_null dst) && _).
    + cbn [fst snd is_null cell_ptr slice.data slice.size].
      repeat split. intros i Hi. now apply memory_copy_inside.
    + destruct (Allocate a (slice.size (cell_ptr src))) as [p a'].
      cbn [fst snd is_null cell_ptr slice.data slice.size].
      repeat split. intros i Hi. now apply memory_copy_inside.
  - cbn [fst snd is_null cell_ptr slice.data slice.size].
    repeat split. intros i Hi. now apply memory_copy_inside.
Qed.

Lemma replace_char_copies_source_witness :
  snd (REPLACE_CHAR.update short_dst long_src (Some {| next_free := 1000 |}) hello)
    (slice.data (cell_ptr (fst (fst (REPLACE_CHAR.update short_dst long_src
                                       (Some {| next_free := 1000 |}) hello)))) + 4)
  = hello (slice.data (cell_ptr long_src) + 4).
Proof.
  refine (proj2 (proj2 (replace_char_copies_source BumpArena BumpArenaOps
                          short_dst long_src (Some {| next_free := 1000 |}) hello eq_refl))
            4 _).
  simpl. lia.
Defined.

(** X9: with an arena, REPLACE on CHAR / VARCHAR never writes past a
    buffer.  When the destination is non-null and its slice is at least
    as long as the source's (equal length included) the buffer is reused:
    no allocation is made, the pointer is kept and every byte that
    changes lies inside the destination's former slice.  Otherwise
    exactly one buffer of the source's size is taken from the arena, the
    destination points to it, and every byte that changes lies inside
    that buffer. *)
Theorem replace_char_arena_in_bounds
    (Arena : Type) (A : ArenaOps Arena) (dst src : SliceCell)
    (a : Arena) (m : Memory) :
  is_null src = false ->
  let r := REPLACE_CHAR.update dst src (Some a) m in
  let dst' := fst (fst r) in
  let arena' := snd (fst r) in
  let m' := snd r in
  (is_null dst = false /\ slice.size (cell_ptr src) <= slice.size (cell_ptr dst) ->
   arena' = Some a /\
   slice.data (cell_ptr dst') = slice.data (cell_ptr dst) /\
   (forall x : Z, m' x <> m x ->
      slice.data (cell_ptr dst) <= x
      < slice.data (cell_ptr dst) + slice.size (cell_ptr dst))) /\
  (is_null dst = true \/ slice.size (cell_ptr dst) < slice.size (cell_ptr src) ->
   arena' = Some (snd (Allocate a (slice.size (cell_ptr src)))) /\
   slice.data (cell_ptr dst') = fst (Allocate a (slice.size (cell_ptr src))) /\
   (forall x : Z, m' x <> m x ->
      slice.data (cell_ptr dst') <= x
      < slice.data (cell_ptr dst') + slice.size (cell_ptr src))).
Proof.
  intros Hn r dst' arena' m'. subst dst' arena' m' r.
  unfold REPLACE_CHAR.update. rewrite Hn.
  cbn [set_is_null set_cell cell_ptr is_null].
  assert (Hin : forall (p n x : Z),
             memory_copy m p (slice.data (cell_ptr src)) n x <> m x -> p <= x < p + n).
  { intros p n x Hx.
    destruct (Z_le_dec p x) as [H1|H1], (Z_lt_dec x (p + n)) as [H2|H2]; try lia;
      exfalso; apply Hx; apply memory_copy_outside; lia. }
  split.
  - intros [Hd Hle]. rewrite Hd. cbn [negb andb].
    destruct (Z.geb_spec (slice.size (cell_ptr dst)) (slice.size (cell_ptr src))); [|lia].
    cbn [fst snd cell_ptr slice.data].
    split; [reflexivity|]. split; [reflexivity|].
    intros x Hx. apply Hin in Hx. lia.
  - intros Hor.
    assert (Hc : negb (is_null dst)
                 && (slice.size (cell_ptr dst) >=? slice.size (cell_ptr src)) = false).
    { destruct Hor as [->|Hlt]; [reflexivity|].
      destruct (Z.geb_spec (slice.size (cell_ptr dst)) (slice.size (cell_ptr src)));
        [lia | apply andb_false_r]. }
    rewrite Hc.
    destruct (Allocate a (slice.size (cell_ptr src))) as [p a'].
    cbn [fst snd cell_ptr slice.data].
    split; [reflexivity|]. split; [reflexivity|].
    intros x Hx. now apply Hin in Hx.
Qed.

Lemma replace_char_arena_in_bounds_witness :
  slice.data (cell_ptr (fst (fst (REPLACE_CHAR.update short_dst long_src
                                    (Some {| next_free := 1000 |}) hello))))
  = fst (Allocate {| next_free := 1000 |} (slice.size (cell_ptr long_src))).
Proof.
  refine (proj1 (proj2 (proj2
    (replace_char_arena_in_bounds BumpArena BumpArenaOps short_dst long_src
       {| next_free := 1000 |} hello eq_refl) _))).
  right. simpl. lia.
Defined.

(** ** Folds of the LARGEINT specialisations *)

Lemma min_largeint_generic (dst src : FixedCell) :
  holds 16 src ->
  MIN_LARGEINT.update dst src = MIN.update (F := IntTraits LARGEINT) dst src.
Proof.
  intros Hs.
  pose proof (assign_load (F := IntTraits LARGEINT)) as Hcopy. simpl in Hcopy.
  unfold MIN_LARGEINT.update, MIN.update.
  destruct (is_null src); [reflexivity|].
  rewrite !memcpy_local. change 16%nat with (width LARGEINT).
  rewrite !int_load_take. cbn [load cpp_lt IntTraits sizeof].
  destruct (is_null dst); cbn [orb].
  - now rewrite Hcopy by exact Hs.
  - destruct (_ <? _); [|reflexivity]. now rewrite Hcopy by exact Hs.
Qed.

Lemma max_largeint_generic (dst src : FixedCell) :
  holds 16 src ->
  MAX_LARGEINT.update dst src = MAX.update (F := IntTraits LARGEINT) dst src.
Proof.
  intros Hs.
  pose proof (assign_load (F := IntTraits LARGEINT)) as Hcopy. simpl in Hcopy.
  unfold MAX_LARGEINT.update, MAX.update, cpp_gt.
  destruct (is_null src); [reflexivity|].
  rewrite !memcpy_local. change 16%nat with (width LARGEINT).
  rewrite !int_load_take. cbn [load cpp_lt IntTraits sizeof].
  rewrite Z.gtb_ltb.
  destruct (is_null dst); cbn [orb].
  - now rewrite Hcopy by exact Hs.
  - destruct (_ <? _); [|reflexivity]. now rewrite Hcopy by exact Hs.
Qed.

Lemma foldl_agree (f g : FixedCell -> FixedCell -> FixedCell) (n : nat) :
  (forall d s : FixedCell, holds n s -> f d s = g d s) ->
  forall (srcs : list FixedCell) (dst : FixedCell),
    Forall (holds n) srcs -> foldl f dst srcs = foldl g dst srcs.
Proof.
  intros Hfg srcs dst Hall. revert dst.
  induction Hall as [|s srcs Hs _ IH]; intros dst; cbn [foldl]; [reflexivity|].
  now rewrite Hfg, IH.
Qed.

(** X10: on a LARGEINT column whose source cells hold 16 bytes, a whole
    sequence of updates by the MIN, MAX and SUM specialisations leaves
    the destination as the generic templates at 128 bits would.  From
    [init] the SUM specialisation therefore yields null when no source
    has a value and otherwise the sum of the values wrapped to 128 bits,
    and the MIN and MAX specialisations the least and the greatest
    value. *)
Theorem largeint_folds (dst : FixedCell) (srcs : list FixedCell) :
  Forall (holds 16) srcs ->
  foldl MIN_LARGEINT.update dst srcs
  = foldl (MIN.update (F := IntTraits LARGEINT)) dst srcs /\
  foldl MAX_LARGEINT.update dst srcs
  = foldl (MAX.update (F := IntTraits LARGEINT)) dst srcs /\
  foldl SUM_LARGEINT.update dst srcs
  = foldl (SUM.update (F := IntTraits LARGEINT)) dst srcs /\
  value LARGEINT (foldl MIN_LARGEINT.update (BaseAggregateFuncs.init dst) srcs)
  = minimum (values LARGEINT srcs) /\
  value LARGEINT (foldl MAX_LARGEINT.update (BaseAggregateFuncs.init dst) srcs)
  = maximum (values LARGEINT srcs) /\
  value LARGEINT (foldl SUM_LARGEINT.update (BaseAggregateFuncs.init dst) srcs)
  = match values LARGEINT srcs with
    | [] => None
    | _ :: _ => Some (wrap LARGEINT (sum_list (values LARGEINT srcs)))
    end.
Proof.
  intros Hall.
  assert (Emin := fun d => foldl_agree _ _ 16 min_largeint_generic srcs d Hall).
  assert (Emax := fun d => foldl_agree _ _ 16 max_largeint_generic srcs d Hall).
  assert (Esum := fun d => foldl_agree _ _ 16 sum_largeint_generic srcs d Hall).
  pose proof (values_fixed LARGEINT srcs) as Hfix.
  split; [apply Emin|]. split; [apply Emax|]. split; [apply Esum|].
  rewrite Emin, Emax, Esum.
  fold (min_fold LARGEINT dst srcs). fold (max_fold LARGEINT dst srcs).
  fold (sum_fold LARGEINT dst srcs).
  rewrite min_fold_minimum, max_fold_maximum, sum_fold_init by exact Hall.
  rewrite !value_cell_of by auto using fixed_minimum, fixed_maximum.
  split; [reflexivity|]. split; [reflexivity|].
  destruct (values LARGEINT srcs); [reflexivity|]. apply value_stored.
Qed.

Lemma largeint_folds_witness :
  value LARGEINT
    (foldl SUM_LARGEINT.update (BaseAggregateFuncs.init (null_cell LARGEINT))
       [int_cell LARGEINT (2 ^ 126); null_cell LARGEINT; int_cell LARGEINT (2 ^ 126)])
  = match values LARGEINT
            [int_cell LARGEINT (2 ^ 126); null_cell LARGEINT; int_cell LARGEINT (2 ^ 126)] with
    | [] => None
    | _ :: _ =>
        Some (wrap LARGEINT
                (sum_list (values LARGEINT
                   [int_cell LARGEINT (2 ^ 126); null_cell LARGEINT;
                    int_cell LARGEINT (2 ^ 126)])))
    end.
Proof.
  refine (proj2 (proj2 (proj2 (proj2 (proj2
    (largeint_folds (null_cell LARGEINT)
       [int_cell LARGEINT (2 ^ 126); null_cell LARGEINT; int_cell LARGEINT (2 ^ 126)] _)))))).
  repeat constructor; unfold holds; simpl; lia.
Defined.

Example largeint_sum_wraps :
  value LARGEINT
    (foldl SUM_LARGEINT.update (BaseAggregateFuncs.init (null_cell LARGEINT))
       [int_cell LARGEINT (2 ^ 126); null_cell LARGEINT; int_cell LARGEINT (2 ^ 126)])
  = Some (- 2 ^ 127).
Proof. vm_compute. reflexivity. Qed.

(** ** The registers HLL_UNION finalize collects *)

Lemma collect_step (regs : list byte) (n : nat) :
  HLL_UNION.collect regs (S n)
  = match regs !! n with
    | Some r =>
        if negb (Byte.eqb r Byte.x00)
        then <[n := r]> (HLL_UNION.collect regs n)
        else HLL_UNION.collect regs n
    | None => HLL_UNION.collect regs n
    end.
Proof. unfold HLL_UNION.collect. now rewrite seq_S, foldl_app. Qed.

Lemma nonzero_registers_step (regs : list byte) (n : nat) :
  nonzero_registers regs (S n)
  = match regs !! n with
    | Some r =>
        if negb (Byte.eqb r Byte.x00)
        then S (nonzero_registers regs n)
        else nonzero_registers regs n
    | None => nonzero_registers regs n
    end.
Proof.
  unfold nonzero_registers. destruct (regs !! n) as [r|] eqn:En.
  - rewrite (take_S_r _ _ _ En), List.filter_app, length_app. cbn [List.filter].
    destruct (negb (Byte.eqb r Byte.x00)); simpl; lia.
  - apply lookup_ge_None in En. now rewrite !take_ge by lia.
Qed.

Lemma collect_size (regs : list byte) (n : nat) :
  size (HLL_UNION.collect regs n) = nonzero_registers regs n.
Proof.
  induction n as [|n IH]; [reflexivity|].
  rewrite collect_step, nonzero_registers_step.
  destruct (regs !! n) as [r|]; [|exact IH].
  destruct (negb (Byte.eqb r Byte.x00)); [|exact IH].
  rewrite map_size_insert_None; [now rewrite IH|].
  destruct (HLL_UNION.collect regs n !! n) as [r'|] eqn:El; [|reflexivity].
  apply collect_lookup in El. lia.
Qed.

Lemma nonzero_registers_le (regs : list byte) (n : nat) :
  (nonzero_registers regs n <= n)%nat.
Proof.
  induction n as [|n IH]; [reflexivity|].
  rewrite nonzero_registers_step.
  destruct (regs !! n) as [r|]; [|lia].
  destruct (negb (Byte.eqb r Byte.x00)); lia.
Qed.

(** X11: the map [index_to_value] that HLL_UNION finalize builds has one
    entry per non-zero register among the first [HLL_REGISTERS_COUNT]
    registers after [set_max_register] when the conversion runs, and none
    when it does not; it never has more than [HLL_REGISTERS_COUNT]
    entries. *)
Theorem hll_index_to_value_size (H : HllSetHelper) (context : HllContext) (hs : gset Z) :
  size (HLL_UNION.index_to_value context hs)
  = (if HLL_UNION.converts context hs
     then nonzero_registers
            (set_max_register (registers context) HLL_REGISTERS_COUNT hs)
            HLL_REGISTERS_COUNT
     else 0%nat) /\
  (size (HLL_UNION.index_to_value context hs) <= HLL_REGISTERS_COUNT)%nat.
Proof.
  unfold HLL_UNION.index_to_value, HLL_UNION.registers_after.
  destruct (HLL_UNION.converts context hs).
  - rewrite collect_size. split; [reflexivity | apply nonzero_registers_le].
  - rewrite map_size_empty. split; [reflexivity | lia].
Qed.

(** X12: when the longest sparse encoding,
    [HLL_REGISTERS_COUNT * (sizeof(SparseIndexType) + sizeof(SparseValueType))
     + sizeof(SparseLengthValueType)], fits an [int], the conversion of
    the sparse length to [int] loses nothing: [sparse_set_len] is the
    number of collected registers times the entry size plus the length
    field, and finalize takes the FULL branch exactly when that number
    is at least [HLL_COLUMN_DEFAULT_LEN]. *)
Theorem hll_sparse_set_len_exact (H : HllSetHelper) (context : HllContext) (hs : gset Z) :
  Z.of_nat HLL_REGISTERS_COUNT
  * (Z.of_nat sizeof_SparseIndexType + Z.of_nat sizeof_SparseValueType)
  + Z.of_nat sizeof_SparseLengthValueType < 2 ^ 31 ->
  let entries := Z.of_nat (size (HLL_UNION.index_to_value context hs)) in
  let len := entries * (Z.of_nat sizeof_SparseIndexType + Z.of_nat sizeof_SparseValueType)
             + Z.of_nat sizeof_SparseLengthValueType in
  HLL_UNION.sparse_set_len context hs = len /\
  (HLL_UNION.select context hs = FullSet <-> HLL_COLUMN_DEFAULT_LEN <= len).
Proof.
  intros Hfit entries len.
  assert (Hle : (size (HLL_UNION.index_to_value context hs) <= HLL_REGISTERS_COUNT)%nat).
  { unfold HLL_UNION.index_to_value. destruct (HLL_UNION.converts context hs).
    - rewrite collect_size. apply nonzero_registers_le.
    - rewrite map_size_empty. lia. }
  assert (Hlen : 0 <= len < 2 ^ 31).
  { subst len entries. split; [lia|].
    eapply Z.le_lt_trans; [|exact Hfit].
    apply Z.add_le_mono_r, Z.mul_le_mono_nonneg_r; lia. }
  assert (E : HLL_UNION.sparse_set_len context hs = len).
  { unfold HLL_UNION.sparse_set_len, int_of_size_t. fold entries. fold len.
    rewrite Z.mod_small
      by (split; [lia|]; apply Z.lt_trans with (2 ^ 31); [lia | reflexivity]).
    apply wrap_small; [simpl; lia|].
    unfold in_range. cbn [is_signed INT]. change (bits INT - 1) with 31. lia. }
  split; [exact E|].
  unfold HLL_UNION.select. rewrite E.
  destruct (Z.geb_spec len HLL_COLUMN_DEFAULT_LEN) as [Hge|Hlt].
  - split; [lia | reflexivity].
  - split; [|lia].
    destruct (0 <? size (HLL_UNION.index_to_value context hs))%nat;
      [discriminate|]. destruct (0 <? size hs)%nat; discriminate.
Qed.

Lemma hll_sparse_set_len_exact_witness :
  HLL_UNION.sparse_set_len (H := small_sketch) three_hashes {[ 1; 2; 3 ]}
  = Z.of_nat (size (HLL_UNION.index_to_value (H := small_sketch) three_hashes {[ 1; 2; 3 ]}))
    * (Z.of_nat 2 + Z.of_nat 1) + Z.of_nat 4.
Proof.
  refine (proj1 (hll_sparse_set_len_exact small_sketch three_hashes {[ 1; 2; 3 ]} _)).
  vm_compute. reflexivity.
Defined.

(** X13: whatever the selected encoder reports, HLL_UNION finalize keeps
    the slice's pointer, records as size the reported length reduced
    modulo 65536, a number from 0 to 65535, leaves the two flags of the
    context as they were and leaves the context without its hash set. *)
Theorem hll_finalize_result
    (H : HllSetHelper) (slice : Slice) (m : Memory) (context : HllContext) (hs : gset Z) :
  hash64_set context = Some hs ->
  exists (slice' : Slice) (m' : Memory) (context' : HllContext) (result_len : Z),
    HLL_UNION.finalize slice m context = Some (slice', m', context') /\
    (m', result_len)
    = match HLL_UNION.select context hs with
      | FullSet => set_full m (slice.data slice)
                     (HLL_UNION.registers_after context hs) HLL_REGISTERS_COUNT
      | SparseSet => set_sparse m (slice.data slice) (HLL_UNION.index_to_value context hs)
      | ExplicitSet => set_explicit m (slice.data slice) hs
      | NoSet => (m, 0)
      end /\
    slice.data slice' = slice.data slice /\
    slice.size slice' = result_len mod 65536 /\
    0 <= slice.size slice' < 65536 /\
    has_value context' = has_value context /\
    has_sparse_or_full context' = has_sparse_or_full context /\
    hash64_set context' = None.
Proof.
  intros Hhs. unfold HLL_UNION.finalize. rewrite Hhs.
  assert (Hland : forall z : Z, Z.land z 65535 = z mod 65536).
  { intros z. change 65535 with (Z.ones 16). change 65536 with (2 ^ 16).
    apply Z.land_ones. lia. }
  destruct (HLL_UNION.select context hs);
    [ destruct (set_full m (slice.data slice)
                  (HLL_UNION.registers_after context hs) HLL_REGISTERS_COUNT) as [m0 l0]
    | destruct (set_sparse m (slice.data slice)
                  (HLL_UNION.index_to_value context hs)) as [m0 l0]
    | destruct (set_explicit m (slice.data slice) hs) as [m0 l0]
    | pose (m0 := m); pose (l0 := 0) ];
    (eexists _, _, _, l0; split; [reflexivity|];
     cbn [slice.data slice.size has_value has_sparse_or_full hash64_set];
     rewrite Hland; repeat split; try reflexivity; apply Z.mod_pos_bound; lia).
Qed.

Lemma hll_finalize_result_witness :
  exists (slice' : Slice) (m' : Memory) (context' : HllContext) (result_len : Z),
    HLL_UNION.finalize (H := small_sketch) {| slice.data := 64; slice.size := 0 |}
      hello three_hashes
    = Some (slice', m', context') /\
    0 <= slice.size slice' < 65536.
Proof.
  destruct (hll_finalize_result small_sketch {| slice.data := 64; slice.size := 0 |}
              hello three_hashes {[ 1; 2; 3 ]} eq_refl)
    as (slice' & m' & context' & l & E & _ & _ & _ & Hb & _).
  now exists slice', m', context', l.
Defined.
